(** * PCMP: the LZSS-family codec of the Panzer Dragoon Orta texture tools

    A shallow embedding of [pcmp_compressor.go] and [pcmp_decompressor.go]:
    the 32-byte container header, the bounded match finder, the encoder
    with its fixed-capacity output buffer, the decoder, and the alignment
    padder, followed by the properties of the codec.

    Conventions.  A Go [byte] is a [Byte.byte]; [b2z] and [z2b] are the
    conversions [int(b)] and [byte(x)] (the latter truncates to 8 bits).
    A [uint16] or [uint32] is a [Z] whose wrap-around is written out with
    [mod].  Slice indices and lengths, which the code keeps non-negative,
    are [nat].  A Go slice is a [list]; an in-place store [s[i] = v] is
    stdpp's [<[i:=v]> s], always issued under the bounds check the code
    performs. *)

From Stdlib Require Import ZArith Lia.
From Stdlib Require Strings.Byte.
From stdpp Require Import base numbers list.

Local Open Scope Z_scope.

(** ** Bytes and results *)

Abbreviation byte := Byte.byte.

Definition b2z (b : byte) : Z := Z.of_N (Byte.to_N b).

Definition z2b (x : Z) : byte :=
  match Byte.of_N (Z.to_N (x mod 256)) with
  | Some b => b
  | None => Byte.x00
  end.

#[global] Instance byte_eq_dec : EqDecision byte := Byte.byte_eq_dec.

Definition uint16 (x : Z) : Z := x mod 65536.
Definition uint32 (x : Z) : Z := x mod 4294967296.

(** The [errors.New] values of the two programs. *)
Inductive error : Set :=
  | errBufferTooSmall
  | errFileTooShort
  | errInvalidSignature
  | errStreamEmpty
  | errStreamPrematureEnd
  | errPrematureEndCopy
  | errPrematureEndLiteral.

(** What a call returns: a value with a nil error, an error, or [Stuck]
    when a loop of the model has used up its fuel (shown below never to
    happen). *)
Inductive result (A : Type) : Type :=
  | Ok (a : A)
  | Err (e : error)
  | Stuck.
Arguments Ok {A} a.
Arguments Err {A} e.
Arguments Stuck {A}.

(** ** Constants of [pcmp_compressor.go] and [pcmp_decompressor.go] *)

Definition maxWindowSize : nat := 4096.
Definition maxEncodedLength : nat := 18.
Definition minMatchLength : nat := 3.
Definition pcmpHeaderSize : nat := 32.
Definition outputBufferSlack : nat := 2048.
Definition fileAlignment : nat := 2048.
Definition pcmpDataOffset : nat := 32.

(** The ASCII signature ["PCMP"]. *)
Definition signature : list byte := [Byte.x50; Byte.x43; Byte.x4d; Byte.x50].

(** ** Container header *)

(** [binary.LittleEndian.PutUint32(b[off:off+4], v)]. *)
Definition putUint32 (off : nat) (v : Z) (b : list byte) : list byte :=
  <[(off + 3)%nat := z2b (Z.shiftr v 24)]>
    (<[(off + 2)%nat := z2b (Z.shiftr v 16)]>
      (<[(off + 1)%nat := z2b (Z.shiftr v 8)]>
        (<[off := z2b v]> b))).

(** [binary.LittleEndian.Uint32(b[off:off+4])]; a missing byte reads as 0,
    the callers check the length first. *)
Definition getUint32 (off : nat) (b : list byte) : Z :=
  let at_ (i : nat) := b2z (default Byte.x00 (b !! i)) in
  Z.lor (at_ off)
    (Z.lor (Z.shiftl (at_ (off + 1)%nat) 8)
      (Z.lor (Z.shiftl (at_ (off + 2)%nat) 16)
             (Z.shiftl (at_ (off + 3)%nat) 24))).

(** The loop of [writePCMPHeader] that clears bytes 4..31 except the two
    size fields. *)
Definition clearReserved (header : list byte) : list byte :=
  foldl (fun h i => if decide (20 <= i /\ i < 28)%nat then h
                    else <[i := Byte.x00]> h)
        header (seq 4 (pcmpHeaderSize - 4)).

Definition writePCMPHeader (totalUncompressedSize totalCompressedStreamSize : Z)
  : result (list byte) :=
  let header := replicate pcmpHeaderSize Byte.x00 in
  let header := list_inserts 0 signature header in
  let header := clearReserved header in
  let header := putUint32 20 totalUncompressedSize header in
  let header := putUint32 24 totalCompressedStreamSize header in
  Ok header.

Definition readPCMPHeader (buf : list byte) : result (Z * Z) :=
  if decide (length buf < pcmpDataOffset)%nat then Err errFileTooShort
  else if decide (take 4 buf ≠ signature) then Err errInvalidSignature
  else
    let outSize := getUint32 20 buf in
    let compSize := getUint32 24 buf in
    let remainingDataInFile :=
      uint32 (Z.of_nat (length buf) - Z.of_nat pcmpDataOffset) in
    if decide (compSize = 0 \/ compSize > remainingDataInFile)
    then Ok (outSize, remainingDataInFile)
    else Ok (outSize, compSize).

(** ** Slices and [bytes.LastIndex] *)

(** [s[lo:hi]]. *)
Definition slice (lo hi : nat) (s : list byte) : list byte :=
  take (hi - lo)%nat (drop lo s).

(** [bytes.LastIndex(s, sep)] of Go's standard library, as documented:
    the index of the last instance of [sep] in [s], that is the greatest
    [i] with [s[i:i+len(sep)] = sep], or -1 (here [None]) when there is
    none.  The scan starts at the last position where [sep] fits and
    walks towards 0. *)
Fixpoint lastIndexFrom (s sep : list byte) (i : nat) : option nat :=
  if decide (take (length sep) (drop i s) = sep) then Some i
  else match i with
       | O => None
       | S i' => lastIndexFrom s sep i'
       end.

Definition lastIndex (s sep : list byte) : option nat :=
  if decide (length s < length sep)%nat then None
  else lastIndexFrom s sep (length s - length sep).

(** ** Match finder *)

(** The [for l := maxMatchLen; l >= minMatchLength; l--] loop of
    [findMatch]. *)
Fixpoint findMatchLoop (inputData window : list byte)
    (currentInputPos windowStart l : nat) : option (nat * nat) :=
  match l with
  | O => None
  | S l' =>
    if decide (l < minMatchLength)%nat then None
    else if decide (length inputData < currentInputPos + l)%nat
    then findMatchLoop inputData window currentInputPos windowStart l'
    else
      let pattern := slice currentInputPos (currentInputPos + l) inputData in
      match lastIndex window pattern with
      | Some idxInWindow =>
          Some ((currentInputPos - (windowStart + idxInWindow))%nat, l)
      | None =>
          findMatchLoop inputData window currentInputPos windowStart l'
      end
  end.

(** [findMatch]: [Some (offset, length)] when found, [None] otherwise. *)
Definition findMatch (inputData : list byte)
    (currentInputPos currentWindowSize maxMatchLen : nat)
  : option (nat * nat) :=
  if decide (length inputData < currentInputPos + minMatchLength)%nat
  then None
  else
    let maxMatchLen :=
      if decide (length inputData < currentInputPos + maxMatchLen)%nat
      then (length inputData - currentInputPos)%nat else maxMatchLen in
    if decide (maxMatchLen < minMatchLength)%nat then None
    else
      let windowStart :=
        if decide (currentInputPos < currentWindowSize)%nat then O
        else (currentInputPos - currentWindowSize)%nat in
      let window := slice windowStart currentInputPos inputData in
      if decide (length window = O) then None
      else findMatchLoop inputData window currentInputPos windowStart
             maxMatchLen.

(** ** Encoder *)

(** The local variables of [coreCompressV1] that survive an iteration. *)
Record encState : Type := EncState {
  outputBuffer : list byte;
  inputPos : nat;
  outputPos : nat;
  currentFlag : byte;
  bitCount : nat;
  flagPos : nat
}.

(** The block [if bitCount == 8 { ... }], which both branches of the loop
    body run after counting their bit: store the finished control byte and
    reserve the slot of the next one. *)
Definition flushFlag (st : encState) : result encState :=
  if decide (bitCount st = 8%nat) then
    let buf := <[flagPos st := currentFlag st]> (outputBuffer st) in
    if decide (length buf <= outputPos st)%nat then Err errBufferTooSmall
    else Ok {| outputBuffer := <[outputPos st := Byte.x00]> buf;
               inputPos := inputPos st;
               outputPos := S (outputPos st);
               currentFlag := Byte.x00;
               bitCount := O;
               flagPos := outputPos st |}
  else Ok st.

(** [uint16(((matchOffset - 1) << 4) | ((matchLength - 3) & 0x0F))]. *)
Definition encodedPairVal (matchOffset matchLength : nat) : Z :=
  uint16 (Z.lor (Z.shiftl (Z.of_nat matchOffset - 1) 4)
                (Z.land (Z.of_nat matchLength - 3) 15)).

(** The bounds the loop body computes at [inputPos] and its call of
    [findMatch]. *)
Definition searchAt (inputData : list byte) (inputPos : nat)
  : option (nat * nat) :=
  let currentWindowSize :=
    if decide (maxWindowSize < inputPos)%nat then maxWindowSize
    else inputPos in
  let currentMaxMatchLen :=
    if decide (maxEncodedLength < length inputData - inputPos)%nat
    then maxEncodedLength else (length inputData - inputPos)%nat in
  findMatch inputData inputPos currentWindowSize currentMaxMatchLen.

(** One iteration of the main loop (progress printing left out). *)
Definition compressStep (inputData : list byte) (st : encState)
  : result encState :=
  if decide (length (outputBuffer st) <= outputPos st)%nat
  then Err errBufferTooSmall
  else
    match searchAt inputData (inputPos st) with
    | None =>
      match flushFlag {| outputBuffer := outputBuffer st;
                         inputPos := inputPos st;
                         outputPos := outputPos st;
                         currentFlag := currentFlag st;
                         bitCount := S (bitCount st);
                         flagPos := flagPos st |} with
      | Ok st1 =>
        if decide (length (outputBuffer st1) <= outputPos st1)%nat
        then Err errBufferTooSmall
        else Ok {| outputBuffer :=
                     <[outputPos st1 :=
                         default Byte.x00 (inputData !! inputPos st1)]>
                       (outputBuffer st1);
                   inputPos := S (inputPos st1);
                   outputPos := S (outputPos st1);
                   currentFlag := currentFlag st1;
                   bitCount := bitCount st1;
                   flagPos := flagPos st1 |}
      | Err e => Err e
      | Stuck => Stuck
      end
    | Some (matchOffset, matchLength) =>
      match flushFlag {| outputBuffer := outputBuffer st;
                         inputPos := inputPos st;
                         outputPos := outputPos st;
                         currentFlag :=
                           z2b (Z.lor (b2z (currentFlag st))
                                  (Z.shiftl 1 (7 - Z.of_nat (bitCount st))));
                         bitCount := S (bitCount st);
                         flagPos := flagPos st |} with
      | Ok st1 =>
        if decide (length (outputBuffer st1) <= outputPos st1 + 1)%nat
        then Err errBufferTooSmall
        else
          let v := encodedPairVal matchOffset matchLength in
          Ok {| outputBuffer :=
                  <[S (outputPos st1) := z2b (Z.land (Z.shiftr v 8) 255)]>
                    (<[outputPos st1 := z2b (Z.land v 255)]>
                       (outputBuffer st1));
                inputPos := (inputPos st1 + matchLength)%nat;
                outputPos := S (S (outputPos st1));
                currentFlag := currentFlag st1;
                bitCount := bitCount st1;
                flagPos := flagPos st1 |}
      | Err e => Err e
      | Stuck => Stuck
      end
    end.

(** [for inputPos < len(inputData) { ... }]. *)
Fixpoint compressLoop (fuel : nat) (inputData : list byte) (st : encState)
  : result encState :=
  if decide (inputPos st < length inputData)%nat then
    match fuel with
    | O => Stuck
    | S fuel' =>
      match compressStep inputData st with
      | Ok st' => compressLoop fuel' inputData st'
      | Err e => Err e
      | Stuck => Stuck
      end
    end
  else Ok st.

Definition estimatedOutputSize (n : nat) : nat :=
  let e := (n + outputBufferSlack)%nat in
  let e := if decide (n < 1024)%nat then (n * 2 + 128)%nat else e in
  if decide (e < 128)%nat then 128%nat else e.

Definition coreCompressV1 (inputData : list byte) : result (list byte) :=
  if decide (length inputData = O) then Ok []
  else
    let buffer :=
      replicate (estimatedOutputSize (length inputData)) Byte.x00 in
    if decide (length buffer <= O)%nat then Err errBufferTooSmall
    else
      match compressLoop (length inputData) inputData
              {| outputBuffer := <[O := Byte.x00]> buffer;
                 inputPos := O;
                 outputPos := 1%nat;
                 currentFlag := Byte.x00;
                 bitCount := O;
                 flagPos := O |} with
      | Ok st =>
          Ok (take (outputPos st)
                (<[flagPos st := currentFlag st]> (outputBuffer st)))
      | Err e => Err e
      | Stuck => Stuck
      end.

(** ** Alignment padder

    [compressAndPadToPCMP] wraps the error of the encoder with
    [fmt.Errorf("...: %w", err)]; the model keeps the wrapped error. *)

Definition compressAndPadToPCMP (inputData : list byte)
  : result (list byte) :=
  let totalUncompressedSize := uint32 (Z.of_nat (length inputData)) in
  match coreCompressV1 inputData with
  | Ok compressedStream =>
    let totalCompressedStreamSize :=
      uint32 (Z.of_nat (length compressedStream)) in
    match writePCMPHeader totalUncompressedSize
            totalCompressedStreamSize with
    | Ok pcmpHeader =>
      let finalOutputData := pcmpHeader ++ compressedStream in
      let remainder := (length finalOutputData mod fileAlignment)%nat in
      let paddingNeeded :=
        if decide (remainder ≠ O) then (fileAlignment - remainder)%nat
        else O in
      if decide (0 < paddingNeeded)%nat
      then Ok (finalOutputData ++ replicate paddingNeeded Byte.x00)
      else Ok finalOutputData
    | Err e => Err e
    | Stuck => Stuck
    end
  | Err e => Err e
  | Stuck => Stuck
  end.

(** ** Decoder *)

(** The local variables of [lzssSimpleDecompress]. *)
Record decState : Type := DecState {
  outBuffer : list byte;
  streamIdx : nat;
  controlByte : byte;
  bitsLeft : Z
}.

(** How an iteration of the decoding loop ends: it falls through to the
    next test of the loop condition, leaves the loop by [break], or
    returns an error. *)
Inductive flow : Type :=
  | Continue (st : decState)
  | Break (st : decState)
  | Fail (e : error).

(** The inner loop [for i := 0; i < count; i++] of a copy operation. *)
Fixpoint copyLoop (count offset : nat) (uncompressedSize : Z)
    (outBuffer : list byte) : list byte :=
  match count with
  | O => outBuffer
  | S count' =>
    if decide (uint32 (Z.of_nat (length outBuffer)) >= uncompressedSize)
    then outBuffer
    else if decide (length outBuffer < offset)%nat
    then copyLoop count' offset uncompressedSize (outBuffer ++ [Byte.x00])
    else copyLoop count' offset uncompressedSize
           (outBuffer ++
              [default Byte.x00
                 (outBuffer !! (length outBuffer - offset)%nat)])
  end.

(** The two bytes of a copy token, as the decoder unpacks them:
    [int((uint16(byte1) >> 4) | (uint16(byte2) << 4)) + 1] and
    [int(byte1 & 0x0F) + 3]. *)
Definition unpackOffset (byte1 byte2 : byte) : nat :=
  Z.to_nat (Z.lor (Z.shiftr (b2z byte1) 4)
                  (uint16 (Z.shiftl (b2z byte2) 4)) + 1).
Definition unpackCount (byte1 : byte) : nat :=
  Z.to_nat (Z.land (b2z byte1) 15 + 3).

(** The token part of an iteration, run once the control bit has been
    taken and the control byte refilled if needed. *)
Definition decodeToken (compressedStream : list byte) (uncompressedSize : Z)
    (isCopyOperation : bool) (st : decState) : flow :=
  let streamLen := length compressedStream in
  if isCopyOperation then
    if decide (streamLen <= streamIdx st + 1)%nat
    then Fail errPrematureEndCopy
    else
      let byte1 := default Byte.x00 (compressedStream !! streamIdx st) in
      let byte2 :=
        default Byte.x00 (compressedStream !! S (streamIdx st)) in
      let offset := unpackOffset byte1 byte2 in
      let count := unpackCount byte1 in
      Continue {| outBuffer :=
                    copyLoop count offset uncompressedSize (outBuffer st);
                  streamIdx := S (S (streamIdx st));
                  controlByte := controlByte st;
                  bitsLeft := bitsLeft st |}
  else
    if decide (streamLen <= streamIdx st)%nat
    then Fail errPrematureEndLiteral
    else if decide (uint32 (Z.of_nat (length (outBuffer st)))
                    >= uncompressedSize)
    then Break st
    else
      Continue {| outBuffer :=
                    outBuffer st ++
                      [default Byte.x00 (compressedStream !! streamIdx st)];
                  streamIdx := S (streamIdx st);
                  controlByte := controlByte st;
                  bitsLeft := bitsLeft st |}.

(** One iteration of [for uint32(len(outBuffer)) < uncompressedSize]. *)
Definition decodeStep (compressedStream : list byte) (uncompressedSize : Z)
    (st : decState) : flow :=
  let streamLen := length compressedStream in
  if decide (streamLen < streamIdx st)%nat then Fail errStreamPrematureEnd
  else
    let isCopyOperation :=
      bool_decide (Z.land (b2z (controlByte st)) 128 ≠ 0) in
    let controlByte' := z2b (Z.shiftl (b2z (controlByte st)) 1) in
    let bitsLeft' := bitsLeft st - 1 in
    if decide (bitsLeft' = 0) then
      if decide (streamLen <= streamIdx st)%nat then
        if decide (uint32 (Z.of_nat (length (outBuffer st)))
                   < uncompressedSize)
        then Fail errStreamPrematureEnd
        else Break st
      else
        decodeToken compressedStream uncompressedSize isCopyOperation
          {| outBuffer := outBuffer st;
             streamIdx := S (streamIdx st);
             controlByte :=
               default Byte.x00 (compressedStream !! streamIdx st);
             bitsLeft := 8 |}
    else
      decodeToken compressedStream uncompressedSize isCopyOperation
        {| outBuffer := outBuffer st;
           streamIdx := streamIdx st;
           controlByte := controlByte';
           bitsLeft := bitsLeft' |}.

Fixpoint decodeLoop (fuel : nat) (compressedStream : list byte)
    (uncompressedSize : Z) (st : decState) : result (list byte) :=
  if decide (uint32 (Z.of_nat (length (outBuffer st))) < uncompressedSize)
  then
    match fuel with
    | O => Stuck
    | S fuel' =>
      match decodeStep compressedStream uncompressedSize st with
      | Continue st' =>
          decodeLoop fuel' compressedStream uncompressedSize st'
      | Break st' => Ok (outBuffer st')
      | Fail e => Err e
      end
    end
  else Ok (outBuffer st).

(** [lzssSimpleDecompress]; the final size warning is a diagnostic only. *)
Definition lzssSimpleDecompress (compressedStream : list byte)
    (uncompressedSize : Z) : result (list byte) :=
  if decide (length compressedStream = O) then
    if decide (uncompressedSize > 0) then Err errStreamEmpty else Ok []
  else
    decodeLoop (Z.to_nat uncompressedSize) compressedStream
      uncompressedSize
      {| outBuffer := [];
         streamIdx := 1%nat;
         controlByte := default Byte.x00 (compressedStream !! O);
         bitsLeft := 8 |}.

(** The header as [writePCMPHeader] lays it out. *)
Definition headerBytes (u c : Z) : list byte :=
  signature ++ replicate 16 Byte.x00 ++
  [z2b u; z2b (Z.shiftr u 8); z2b (Z.shiftr u 16); z2b (Z.shiftr u 24)] ++
  [z2b c; z2b (Z.shiftr c 8); z2b (Z.shiftr c 16); z2b (Z.shiftr c 24)] ++
  replicate 4 Byte.x00.

(** ** Tokens

    The code has no token type: a token is what one iteration of the
    encoder loop writes and what one iteration of the decoder loop reads.
    The trace below records the decisions of the encoder loop. *)
Inductive token : Type :=
  | Literal (b : byte)
  | Copy (offset length : nat).

(** Input bytes a token stands for. *)
Definition tokenSpan (t : token) : nat :=
  match t with Literal _ => 1%nat | Copy _ l => l end.

(** The token the loop body emits at [inputPos]. *)
Definition tokenAt (inputData : list byte) (inputPos : nat) : token :=
  match searchAt inputData inputPos with
  | None => Literal (default Byte.x00 (inputData !! inputPos))
  | Some (matchOffset, matchLength) => Copy matchOffset matchLength
  end.

Fixpoint tokensFrom (fuel : nat) (inputData : list byte) (inputPos : nat)
  : list token :=
  if decide (inputPos < length inputData)%nat then
    match fuel with
    | O => []
    | S fuel' =>
      let t := tokenAt inputData inputPos in
      t :: tokensFrom fuel' inputData (inputPos + tokenSpan t)%nat
    end
  else [].

Definition encoderTokens (inputData : list byte) : list token :=
  tokensFrom (length inputData) inputData O.

(** The pattern [inputData[pos:pos+l]] occurs [o] bytes back, entirely
    inside the window [inputData[ws:pos]]. *)
Definition matchAtOffset (inputData : list byte) (pos ws l o : nat) : Prop :=
  (l <= o)%nat /\ (o <= pos - ws)%nat /\
  slice (pos - o) (pos - o + l) inputData = slice pos (pos + l) inputData.

(** ** Wire format (spec section 4.2)

    The token stream as the bitstream codec lays it out: a control byte,
    most significant bit first, for every group of eight tokens; the
    control byte of the next group is stored before the last token of the
    group it follows.  The encoder is shown below to produce exactly
    these bytes. *)

Definition isCopy (t : token) : bool :=
  match t with Copy _ _ => true | Literal _ => false end.

(** The control byte announcing the next [n] tokens. *)
Fixpoint flagOf (n : nat) (ts : list token) : Z :=
  match n, ts with
  | S n', t :: ts' =>
      Z.lor (if isCopy t then 128 else 0) (Z.shiftr (flagOf n' ts') 1)
  | _, _ => 0
  end.

Definition tokenBytes (t : token) : list byte :=
  match t with
  | Literal b => [b]
  | Copy o l =>
      let v := encodedPairVal o l in
      [z2b (Z.land v 255); z2b (Z.land (Z.shiftr v 8) 255)]
  end.

(** The bytes that follow a control byte of which [c] bits are used. *)
Fixpoint wireBody (c : nat) (ts : list token) : list byte :=
  match ts with
  | [] => []
  | t :: ts' =>
      if decide (S c = 8%nat)
      then z2b (flagOf 8 ts') :: tokenBytes t ++ wireBody O ts'
      else tokenBytes t ++ wireBody (S c) ts'
  end.

Definition wire (ts : list token) : list byte :=
  match ts with
  | [] => []
  | _ :: _ => z2b (flagOf 8 ts) :: wireBody O ts
  end.

(** The tokens [ts] describe [X] from position [p] on: a literal is the
    byte at [p], a copy of length [l] at offset [o] repeats bytes that lie
    [o] positions back. *)
Fixpoint parses (X : list byte) (p : nat) (ts : list token) : Prop :=
  match ts with
  | [] => p = length X
  | Literal b :: ts' => X !! p = Some b /\ parses X (S p) ts'
  | Copy o l :: ts' =>
      (1 <= o <= 4096)%nat /\ (3 <= l <= 18)%nat /\ (o <= p)%nat /\
      (p + l <= length X)%nat /\
      (forall i : nat, (i < l)%nat -> X !! (p + i)%nat = X !! (p + i - o)%nat) /\
      parses X (p + l)%nat ts'
  end.

(** What the encoder loop maintains: the control-byte slot lies inside
    the written part of the buffer, and fewer than eight bits are
    pending. *)
Definition encInv (st : encState) : Prop :=
  (flagPos st < outputPos st)%nat /\
  (outputPos st <= length (outputBuffer st))%nat /\
  (bitCount st < 8)%nat.

(** The control byte after the bit of token [t] has been counted. *)
Definition flagWith (currentFlag : byte) (bitCount : nat) (t : token) : byte :=
  match t with
  | Literal _ => currentFlag
  | Copy _ _ =>
      z2b (Z.lor (b2z currentFlag) (Z.shiftl 1 (7 - Z.of_nat bitCount)))
  end.

(** The control byte the decoder holds announces the tokens [ts]: [c] of
    its bits are used up, the others are at the top. *)
Definition ctrlOK (c : nat) (cb : byte) (ts : list token) : Prop :=
  forall (i : nat) (t : token),
    (i < 8 - c)%nat -> ts !! i = Some t ->
    Z.testbit (b2z cb) (7 - Z.of_nat i) = isCopy t.

(** Eight output bytes pay for nine input bytes at most. *)
Definition encBudget (st : encState) : Prop :=
  (8 * outputPos st + bitCount st <= 8 + 9 * inputPos st)%nat.

(** ** An incompressible input

    The blocks [k / 255; k mod 255; 0xFF] for [k = 0, 1, ...]: no three
    consecutive bytes occur twice, so the match finder never succeeds. *)
Definition distinctBlocks (blocks : nat) : list byte :=
  flat_map
    (fun k : nat =>
       [z2b (Z.of_nat k / 255); z2b (Z.of_nat k mod 255); Byte.xff])
    (seq 0 blocks).

(** The position at which three consecutive bytes of [distinctBlocks]
    start. *)
Definition trigramIndex (a b c : byte) : Z :=
  if decide (b2z c = 255) then 3 * (255 * b2z a + b2z b)
  else if decide (b2z b = 255)
  then 3 * (255 * (if decide (b2z a = 254) then b2z c - 1 else b2z c)
            + b2z a) + 1
  else 3 * (255 * b2z b + b2z c - 1) + 2.

(** Checks that the three bytes at every position [k] of [l] have index
    [i + k]. *)
Fixpoint trigramsFrom (i : Z) (l : list byte) : bool :=
  match l with
  | [] => true
  | a :: tl =>
    match tl with
    | b :: c :: _ => (trigramIndex a b c =? i) && trigramsFrom (i + 1) tl
    | _ => true
    end
  end.

(** 5462 blocks, 16386 bytes. *)
Definition incompressible : list byte := distinctBlocks (Z.to_nat 5462).

(** ** The file paths of the two tools

    [decompressPCMPFile] and the two [main] functions, from the bytes of
    the input file to the bytes of the output file; reading and writing
    the files, and the messages, are left out. *)

(** The errors [decompressPCMPFile] builds with [fmt.Errorf]: the two
    that wrap an error of the header or of the decoder, and the two it
    raises itself. *)
Inductive fileError : Set :=
  | errProcessingHeader (e : error)
  | errStreamExceedsFile
  | errZeroStreamSize
  | errDecompression (e : error).

Inductive fileResult : Type :=
  | FileOk (data : list byte)
  | FileErr (e : fileError)
  | FileStuck.

(** [decompressPCMPFile], applied to the content of the file. *)
Definition decompressPCMPFile (fileData : list byte) : fileResult :=
  match readPCMPHeader fileData with
  | Ok (uncompressedSize, compressedStreamSize) =>
    if decide (Z.of_nat pcmpDataOffset + compressedStreamSize
               > Z.of_nat (length fileData))
    then FileErr errStreamExceedsFile
    else if decide (compressedStreamSize = 0 /\ uncompressedSize > 0)
    then FileErr errZeroStreamSize
    else if decide (compressedStreamSize = 0 /\ uncompressedSize = 0)
    then FileOk []
    else
      let compressedStream :=
        slice pcmpDataOffset
          (pcmpDataOffset + Z.to_nat compressedStreamSize) fileData in
      match lzssSimpleDecompress compressedStream uncompressedSize with
      | Ok decompressedData => FileOk decompressedData
      | Err e => FileErr (errDecompression e)
      | Stuck => FileStuck
      end
  | Err e => FileErr (errProcessingHeader e)
  | Stuck => FileStuck
  end.

(** [main] of the compressor, from the content of the input file to the
    content of the output file: an empty file gets the header copied
    into a zeroed alignment unit (the error of [writePCMPHeader] is
    ignored there), any other goes through [compressAndPadToPCMP]. *)
Definition compressorMain (inputData : list byte) : result (list byte) :=
  if decide (length inputData = O) then
    let header :=
      match writePCMPHeader 0 0 with
      | Ok header => header
      | _ => []
      end in
    Ok (list_inserts 0 header (replicate fileAlignment Byte.x00))
  else compressAndPadToPCMP inputData.

(** ** The decoder with a smaller target

    The state of a run with target [m], seen from a run of the same stream
    with a larger target: the output cut at [m] bytes. *)
Definition cutOutput (m : Z) (st : decState) : decState :=
  {| outBuffer := take (Z.to_nat m) (outBuffer st);
     streamIdx := streamIdx st;
     controlByte := controlByte st;
     bitsLeft := bitsLeft st |}.

(** * Properties *)

(** ** Bytes *)

Lemma b2z_range (b : byte) : 0 <= b2z b < 256.
Proof.
  unfold b2z. pose proof (Byte.to_N_bounded b). lia.
Qed.

Lemma z2b_b2z (b : byte) : z2b (b2z b) = b.
Proof.
  unfold z2b. rewrite Z.mod_small by apply b2z_range.
  unfold b2z. rewrite N2Z.id, Byte.of_to_N. reflexivity.
Qed.

Lemma b2z_z2b (x : Z) : b2z (z2b x) = x mod 256.
Proof.
  unfold z2b, b2z.
  assert (Hr : 0 <= x mod 256 < 256) by (apply Z.mod_pos_bound; lia).
  destruct (Byte.of_N (Z.to_N (x mod 256))) as [b|] eqn:E.
  - apply Byte.to_of_N in E. rewrite E. lia.
  - apply Byte.of_N_None_iff in E. lia.
Qed.

Lemma b2z_x00 : b2z Byte.x00 = 0.
Proof. reflexivity. Qed.

#[global] Opaque b2z z2b.

(** Bit [n] of a byte-sized value. *)
Lemma testbit_mod256 (x n : Z) :
  Z.testbit (x mod 256) n = (n <? 8) && Z.testbit x n.
Proof. exact (Z.testbit_mod_pow2 x 8 n ltac:(lia)). Qed.

Lemma testbit_above (v k n : Z) :
  0 <= v < 2 ^ k -> k <= n -> Z.testbit v n = false.
Proof.
  intros Hv Hn. destruct (decide (v = 0)) as [->|Hz].
  - apply Z.bits_0.
  - apply Z.bits_above_log2; [lia|].
    apply Z.log2_lt_pow2; [lia|].
    eapply Z.lt_le_trans; [apply Hv|]. apply Z.pow_le_mono_r; lia.
Qed.

(** Rewrites the bit of a combination of the operators the code uses. *)
Ltac bit_simpl :=
  repeat first
    [ rewrite Z.lor_spec | rewrite Z.land_spec
    | rewrite testbit_mod256
    | rewrite Z.shiftl_spec by lia | rewrite Z.shiftr_spec by lia ].

(** ** Header codec *)

Lemma uint32_le_bytes (v : Z) :
  0 <= v < 4294967296 ->
  Z.lor (v mod 256)
    (Z.lor (Z.shiftl (Z.shiftr v 8 mod 256) 8)
      (Z.lor (Z.shiftl (Z.shiftr v 16 mod 256) 16)
             (Z.shiftl (Z.shiftr v 24 mod 256) 24))) = v.
Proof.
  intros Hv. apply Z.bits_inj'. intros n Hn. bit_simpl.
  assert (Hhi : 32 <= n -> Z.testbit v n = false)
    by (intros; apply (testbit_above v 32); lia).
  destruct (Z.ltb_spec n 8); destruct (Z.ltb_spec (n - 8) 8);
    destruct (Z.ltb_spec (n - 16) 8); destruct (Z.ltb_spec (n - 24) 8);
    try lia; cbn [andb orb];
    rewrite ?(Z.testbit_neg_r _ (n - 8)), ?(Z.testbit_neg_r _ (n - 16)),
      ?(Z.testbit_neg_r _ (n - 24)) by lia;
    rewrite ?Z.shiftr_spec by lia;
    rewrite ?orb_false_r, ?andb_false_r; cbn [andb orb];
    try (f_equal; lia).
  symmetry. apply Hhi. lia.
Qed.

Lemma writePCMPHeader_bytes (u c : Z) :
  writePCMPHeader u c = Ok (headerBytes u c).
Proof. reflexivity. Qed.

Lemma headerBytes_length (u c : Z) : length (headerBytes u c) = 32%nat.
Proof. reflexivity. Qed.

Lemma getUint32_header (u c : Z) (payload : list byte) :
  0 <= u < 4294967296 -> 0 <= c < 4294967296 ->
  getUint32 20 (headerBytes u c ++ payload) = u /\
  getUint32 24 (headerBytes u c ++ payload) = c.
Proof.
  intros Hu Hc. unfold getUint32, headerBytes. cbn.
  rewrite !b2z_z2b. split; apply uint32_le_bytes; assumption.
Qed.

Lemma readPCMPHeader_write (u c : Z) (payload : list byte) :
  0 <= u < 4294967296 -> 0 <= c < 4294967296 ->
  readPCMPHeader (headerBytes u c ++ payload) =
    let remaining := uint32 (Z.of_nat (length payload)) in
    if decide (c = 0 \/ c > remaining) then Ok (u, remaining) else Ok (u, c).
Proof.
  intros Hu Hc. unfold readPCMPHeader.
  rewrite length_app, headerBytes_length.
  destruct (getUint32_header u c payload Hu Hc) as [-> ->].
  rewrite decide_False by (unfold pcmpDataOffset; lia).
  rewrite decide_False by (intros H; apply H; reflexivity).
  replace (Z.of_nat (32 + length payload) - Z.of_nat pcmpDataOffset)
    with (Z.of_nat (length payload)) by (unfold pcmpDataOffset; lia).
  reflexivity.
Qed.

(** ** [bytes.LastIndex] and the match finder *)

Section match_finder.
Local Open Scope nat_scope.

Lemma slice_length (lo hi : nat) (s : list byte) :
  hi <= length s -> length (slice lo hi s) = hi - lo.
Proof.
  intros H. unfold slice. rewrite length_take, length_drop. lia.
Qed.

Lemma slice_inside (ws pos j l : nat) (s : list byte) :
  j + l <= pos - ws ->
  take l (drop j (slice ws pos s)) = slice (ws + j) (ws + j + l) s.
Proof.
  intros H. unfold slice.
  rewrite take_drop_commute, take_take, Nat.min_l by lia.
  rewrite <- take_drop_commute, drop_drop.
  f_equal. lia.
Qed.

Lemma lastIndexFrom_Some (s sep : list byte) (i j : nat) :
  lastIndexFrom s sep i = Some j ->
  j <= i /\ take (length sep) (drop j s) = sep /\
  forall k, j < k <= i -> take (length sep) (drop k s) <> sep.
Proof.
  induction i as [|i IH]; simpl; intros H.
  - destruct (decide _) as [E|E]; [|discriminate].
    injection H as <-. repeat split; [lia|exact E|]. intros k Hk; lia.
  - destruct (decide _) as [E|E].
    + injection H as <-. repeat split; [lia|exact E|]. intros k Hk; lia.
    + destruct (IH H) as (Hle & Hocc & Hlast).
      repeat split; [lia|exact Hocc|]. intros k Hk.
      destruct (decide (k = S i)) as [->|Hne]; [exact E|].
      apply Hlast. lia.
Qed.

Lemma lastIndexFrom_None (s sep : list byte) (i : nat) :
  lastIndexFrom s sep i = None ->
  forall k, k <= i -> take (length sep) (drop k s) <> sep.
Proof.
  induction i as [|i IH]; simpl; intros H k Hk;
    destruct (decide _) as [E|E]; try discriminate.
  - replace k with 0 by lia. exact E.
  - destruct (decide (k = S i)) as [->|Hne]; [exact E|].
    apply IH; [exact H|lia].
Qed.

Lemma occurrence_fits (s sep : list byte) (k : nat) :
  take (length sep) (drop k s) = sep -> sep <> [] ->
  k + length sep <= length s.
Proof.
  intros H Hne. apply (f_equal length) in H.
  rewrite length_take, length_drop in H.
  assert (length sep <> 0) by (destruct sep; simpl; congruence). lia.
Qed.

(** [bytes.LastIndex] returns the last occurrence, or -1 when there is none. *)
Lemma lastIndex_Some (s sep : list byte) (j : nat) :
  sep <> [] -> lastIndex s sep = Some j ->
  j + length sep <= length s /\ take (length sep) (drop j s) = sep /\
  forall k, j < k -> take (length sep) (drop k s) <> sep.
Proof.
  intros Hne. unfold lastIndex. destruct (decide _) as [Hlt|Hge]; [discriminate|].
  intros H. apply lastIndexFrom_Some in H as (Hle & Hocc & Hlast).
  repeat split; [lia|exact Hocc|]. intros k Hk Hk'.
  pose proof (occurrence_fits _ _ _ Hk' Hne).
  apply (Hlast k); [lia|exact Hk'].
Qed.

Lemma lastIndex_None (s sep : list byte) :
  sep <> [] -> lastIndex s sep = None ->
  forall k, take (length sep) (drop k s) <> sep.
Proof.
  intros Hne. unfold lastIndex. destruct (decide _) as [Hlt|Hge].
  - intros _ k Hk. pose proof (occurrence_fits _ _ _ Hk Hne). lia.
  - intros H k Hk. pose proof (occurrence_fits _ _ _ Hk Hne).
    apply (lastIndexFrom_None _ _ _ H k); [lia|exact Hk].
Qed.

Section window.
Variable inputData : list byte.
Variables pos ws : nat.
Hypothesis Hws : ws <= pos.
Hypothesis Hpos : pos <= length inputData.

Let window := slice ws pos inputData.

Lemma window_length : length window = pos - ws.
Proof. unfold window. apply slice_length. exact Hpos. Qed.

  (** An occurrence at index [k] of the window is a match [pos - (ws + k)]
      bytes back. *)
Lemma window_occurrence (l k : nat) :
    k + l <= pos - ws ->
    take l (drop k window) = slice pos (pos + l) inputData <->
    matchAtOffset inputData pos ws l (pos - (ws + k)).
Proof.
    intros Hk. unfold matchAtOffset, window. rewrite slice_inside by exact Hk.
    replace (pos - (pos - (ws + k))) with (ws + k) by lia.
    split; [intros H; repeat split; [lia|lia|exact H]|intros (_ & _ & H); exact H].
Qed.

Lemma lastIndex_match (l j : nat) :
    0 < l -> pos + l <= length inputData ->
    lastIndex window (slice pos (pos + l) inputData) = Some j ->
    matchAtOffset inputData pos ws l (pos - (ws + j)) /\
    forall o, matchAtOffset inputData pos ws l o -> pos - (ws + j) <= o.
Proof.
    intros Hl Hfit H.
    assert (Hlen : length (slice pos (pos + l) inputData) = l)
      by (rewrite slice_length by exact Hfit; lia).
    assert (Hne : slice pos (pos + l) inputData <> [])
      by (intros E; rewrite E in Hlen; simpl in Hlen; lia).
    apply lastIndex_Some in H as (Hj & Hocc & Hlast); [|exact Hne].
    rewrite Hlen, window_length in *.
    split; [apply window_occurrence; [lia|exact Hocc]|].
    intros o (Hlo & How & Ho).
    destruct (decide (pos - (ws + j) <= o)) as [|Hgt]; [assumption|exfalso].
    apply (Hlast (pos - ws - o)); [lia|].
    apply window_occurrence; [lia|].
    replace (pos - (ws + (pos - ws - o))) with o by lia.
    repeat split; assumption.
Qed.

Lemma lastIndex_no_match (l : nat) :
    0 < l -> pos + l <= length inputData ->
    lastIndex window (slice pos (pos + l) inputData) = None ->
    forall o, ~ matchAtOffset inputData pos ws l o.
Proof.
    intros Hl Hfit H o (Hlo & How & Ho).
    assert (Hlen : length (slice pos (pos + l) inputData) = l)
      by (rewrite slice_length by exact Hfit; lia).
    assert (Hne : slice pos (pos + l) inputData <> [])
      by (intros E; rewrite E in Hlen; simpl in Hlen; lia).
    apply (lastIndex_None _ _ Hne H (pos - ws - o)).
    rewrite Hlen. apply window_occurrence; [lia|].
    replace (pos - (ws + (pos - ws - o))) with o by lia.
    repeat split; assumption.
Qed.

  (** The loop over candidate lengths, longest first. *)
Lemma findMatchLoop_spec (l0 : nat) :
    match findMatchLoop inputData window pos ws l0 with
    | Some (off, l) =>
        3 <= l <= l0 /\ pos + l <= length inputData /\
        matchAtOffset inputData pos ws l off /\
        (forall o, matchAtOffset inputData pos ws l o -> off <= o) /\
        (forall l' o, l < l' <= l0 -> pos + l' <= length inputData ->
                      ~ matchAtOffset inputData pos ws l' o)
    | None =>
        forall l o, 3 <= l <= l0 -> pos + l <= length inputData ->
                    ~ matchAtOffset inputData pos ws l o
    end.
Proof.
    induction l0 as [|l0 IH]; [intros l o Hl; lia|].
    cbn [findMatchLoop]. unfold minMatchLength.
    destruct (decide (S l0 < 3)) as [Hsmall|Hbig]; [intros l o Hl; lia|].
    destruct (decide (length inputData < pos + S l0)) as [Hover|Hfit].
    - destruct (findMatchLoop inputData window pos ws l0) as [[off l]|].
      + destruct IH as (Hl & Hf & Hm & Hmin & Hlong).
        split; [lia|]. do 3 (split; [assumption|]).
        intros l' o Hl' Hf'. apply Hlong; lia.
      + intros l o Hl Hf. apply IH; lia.
    - destruct (lastIndex window _) as [j|] eqn:E.
      + apply lastIndex_match in E as (Hm & Hmin); [|lia|lia].
        split; [lia|]. split; [lia|]. do 2 (split; [assumption|]).
        intros l' o Hl'; lia.
      + pose proof (lastIndex_no_match (S l0) ltac:(lia) ltac:(lia) E) as Hno.
        destruct (findMatchLoop inputData window pos ws l0) as [[off l]|].
        * destruct IH as (Hl & Hf & Hm & Hmin & Hlong).
          split; [lia|]. do 3 (split; [assumption|]).
          intros l' o Hl' Hf'. destruct (decide (l' = S l0)) as [->|Hne];
            [apply Hno|apply Hlong; lia].
        * intros l o Hl Hf. destruct (decide (l = S l0)) as [->|Hne];
            [apply Hno|apply IH; lia].
Qed.
End window.

(** [findMatch] for any window bound [w] and length bound [m]. *)
Lemma findMatch_spec (inputData : list byte) (pos w m : nat) :
  let ws := pos - w in
  let maxLen := m `min` (length inputData - pos) in
  match findMatch inputData pos w m with
  | Some (off, l) =>
      3 <= l <= maxLen /\
      matchAtOffset inputData pos ws l off /\
      (forall o, matchAtOffset inputData pos ws l o -> off <= o) /\
      (forall l' o, l < l' <= maxLen -> ~ matchAtOffset inputData pos ws l' o)
  | None =>
      forall l o, 3 <= l <= maxLen -> ~ matchAtOffset inputData pos ws l o
  end.
Proof.
  intros ws maxLen. unfold findMatch, minMatchLength.
  destruct (decide (length inputData < pos + 3)) as [Hshort|Hlong];
    [intros l o Hl; lia|].
  set (m' := if decide (length inputData < pos + m)
             then length inputData - pos else m).
  assert (Hm' : m' = maxLen).
  { subst m' maxLen. destruct (decide (length inputData < pos + m)); lia. }
  destruct (decide (m' < 3)) as [Hsmall|Hbig]; [intros l o Hl; lia|].
  set (ws' := if decide (pos < w) then 0 else pos - w).
  assert (Hws' : ws' = ws)
    by (subst ws' ws; destruct (decide (pos < w)); lia).
  rewrite Hws', Hm'.
  destruct (decide (length (slice ws pos inputData) = 0)) as [Hempty|Hwin].
  - rewrite slice_length in Hempty by lia.
    intros l o Hl (Hlo & How & _). lia.
  - pose proof (findMatchLoop_spec inputData pos ws ltac:(lia) ltac:(lia) maxLen)
      as H.
    destruct (findMatchLoop _ _ _ _ _) as [[off l]|].
    + destruct H as (Hl & Hf & Hm & Hmin & Hnone).
      split; [lia|]. do 2 (split; [assumption|]).
      intros l' o Hl'. apply Hnone; lia.
    + intros l o Hl. apply H; lia.
Qed.

End match_finder.

(** ** The tokens of the encoder *)

Section encoder_tokens.
Local Open Scope nat_scope.

Lemma slice_lookup (lo hi i : nat) (s : list byte) :
  i < hi - lo -> slice lo hi s !! i = s !! (lo + i).
Proof.
  intros H. unfold slice. rewrite lookup_take_lt by exact H.
  apply lookup_drop.
Qed.

(** What the encoder knows about a match it was given. *)
Lemma searchAt_Some (inputData : list byte) (pos o l : nat) :
  searchAt inputData pos = Some (o, l) ->
  3 <= l <= 18 /\ pos + l <= length inputData /\ l <= o /\ o <= pos /\
  o <= 4096 /\
  slice (pos - o) (pos - o + l) inputData = slice pos (pos + l) inputData.
Proof.
  unfold searchAt. intros H.
  match type of H with findMatch _ _ ?w ?m = _ =>
    pose proof (findMatch_spec inputData pos w m) as S;
    assert (Hw : w <= pos /\ w <= 4096)
      by (destruct (decide (maxWindowSize < pos));
          unfold maxWindowSize in *; lia);
    assert (Hm : m <= 18)
      by (destruct (decide (maxEncodedLength < length inputData - pos));
          unfold maxEncodedLength in *; lia);
    revert S H Hw Hm; generalize w m
  end.
  intros w m S H Hw Hm. cbv zeta in S. rewrite H in S.
  destruct S as (Hl & (Hlo & How & Heq) & _).
  split; [lia|]. split; [lia|]. split; [lia|]. split; [lia|].
  split; [lia|exact Heq].
Qed.

Lemma match_lookup (inputData : list byte) (pos o l : nat) :
  slice (pos - o) (pos - o + l) inputData = slice pos (pos + l) inputData ->
  o <= pos ->
  forall i, i < l -> inputData !! (pos + i) = inputData !! (pos + i - o).
Proof.
  intros Heq Ho i Hi.
  rewrite <- (slice_lookup pos (pos + l)) by lia.
  rewrite <- Heq, slice_lookup by lia. f_equal. lia.
Qed.

Lemma tokenSpan_tokenAt (inputData : list byte) (pos : nat) :
  1 <= tokenSpan (tokenAt inputData pos).
Proof.
  unfold tokenAt. destruct (searchAt inputData pos) as [[o l]|] eqn:E;
    simpl; [|lia].
  apply searchAt_Some in E. lia.
Qed.

(** The trace of the encoder describes its input. *)
Lemma tokensFrom_parses (inputData : list byte) (fuel p : nat) :
  p <= length inputData -> length inputData <= p + fuel ->
  parses inputData p (tokensFrom fuel inputData p).
Proof.
  revert p. induction fuel as [|fuel IH]; intros p Hp Hfuel.
  - simpl. destruct (decide _); simpl; lia.
  - cbn [tokensFrom]. destruct (decide (p < length inputData)) as [Hlt|Hge];
      [|simpl; lia].
    unfold tokenAt at 1 2.
    destruct (searchAt inputData p) as [[o l]|] eqn:E.
    + pose proof (searchAt_Some _ _ _ _ E) as (Hl & Hfit & Hlo & Hop & Ho & Heq).
      cbn [parses tokenSpan].
      split; [lia|]. split; [lia|]. split; [lia|]. split; [lia|].
      split; [apply match_lookup; assumption|].
      apply IH; lia.
    + cbn [parses tokenSpan].
      destruct (lookup_lt_is_Some_2 inputData p Hlt) as [b Hb].
      rewrite Hb. split; [reflexivity|].
      replace (p + 1) with (S p) by lia. apply IH; lia.
Qed.

Lemma tokensFrom_elem (inputData : list byte) (fuel p : nat) (t : token) :
  t ∈ tokensFrom fuel inputData p ->
  exists q, p <= q < length inputData /\ t = tokenAt inputData q.
Proof.
  revert p. induction fuel as [|fuel IH]; intros p.
  - simpl. destruct (decide _); intros H; inversion H.
  - cbn [tokensFrom]. destruct (decide (p < length inputData)) as [Hlt|Hge];
      [|intros H; inversion H].
    intros [->|H]%elem_of_cons.
    + exists p. split; [lia|reflexivity].
    + apply IH in H as (q & Hq & ->).
      pose proof (tokenSpan_tokenAt inputData p).
      exists q. split; [lia|reflexivity].
Qed.

End encoder_tokens.

(** ** Control bits and packed copy tokens *)

Lemma testbit_128 (m : Z) : Z.testbit 128 m = (7 =? m).
Proof. exact (Z.pow2_bits_eqb 7 m ltac:(lia)). Qed.

Lemma land_128 (x : Z) :
  Z.land x 128 = if Z.testbit x 7 then 128 else 0.
Proof.
  apply Z.bits_inj'. intros n Hn. rewrite Z.land_spec, testbit_128.
  destruct (Z.testbit x 7) eqn:E7.
  - rewrite testbit_128. destruct (Z.eqb_spec 7 n) as [<-|Hne].
    + now rewrite E7.
    + apply andb_false_r.
  - rewrite Z.bits_0. destruct (Z.eqb_spec 7 n) as [<-|Hne].
    + now rewrite E7.
    + apply andb_false_r.
Qed.

(** The test [(controlByte & 0x80) != 0] reads bit 7. *)
Lemma msb_test (cb : byte) :
  bool_decide (Z.land (b2z cb) 128 <> 0) = Z.testbit (b2z cb) 7.
Proof.
  rewrite land_128. destruct (Z.testbit (b2z cb) 7).
  - now apply bool_decide_eq_true_2.
  - now apply bool_decide_eq_false_2.
Qed.

(** [controlByte <<= 1] moves every bit one place up. *)
Lemma shifted_bit (cb : byte) (k : Z) :
  0 <= k < 7 ->
  Z.testbit (b2z (z2b (Z.shiftl (b2z cb) 1))) (k + 1) = Z.testbit (b2z cb) k.
Proof.
  intros Hk. rewrite b2z_z2b, testbit_mod256, Z.shiftl_spec by lia.
  replace (k + 1 <? 8) with true by lia. simpl. f_equal. lia.
Qed.

Lemma flagOf_nonneg (n : nat) (ts : list token) : 0 <= flagOf n ts.
Proof.
  revert ts. induction n as [|n IH]; intros [|t ts]; simpl; try lia.
  apply Z.lor_nonneg. split.
  - destruct (isCopy t); lia.
  - apply Z.shiftr_nonneg, IH.
Qed.

Lemma flagOf_high (n : nat) (ts : list token) (k : Z) :
  8 <= k -> Z.testbit (flagOf n ts) k = false.
Proof.
  revert ts k. induction n as [|n IH]; intros [|t ts] k Hk; simpl;
    try apply Z.bits_0.
  rewrite Z.lor_spec, Z.shiftr_spec, IH by lia.
  rewrite orb_false_r. destruct (isCopy t); [|apply Z.bits_0].
  rewrite testbit_128. apply Z.eqb_neq. lia.
Qed.

(** Bit [7 - i] of a control byte tells the kind of its [i]-th token. *)
Lemma flagOf_testbit (n : nat) (ts : list token) (i : nat) (t : token) :
  (n <= 8)%nat -> (i < n)%nat -> ts !! i = Some t ->
  Z.testbit (flagOf n ts) (7 - Z.of_nat i) = isCopy t.
Proof.
  revert ts i. induction n as [|n IH]; intros [|t0 ts] i Hn Hi Hlook;
    try lia; try discriminate.
  cbn [flagOf]. rewrite Z.lor_spec, Z.shiftr_spec by lia.
  destruct i as [|i].
  - injection Hlook as ->. replace (7 - Z.of_nat 0) with 7 by lia.
    rewrite flagOf_high by lia. rewrite orb_false_r.
    destruct (isCopy t); reflexivity.
  - cbn in Hlook.
    replace (7 - Z.of_nat (S i) + 1) with (7 - Z.of_nat i) by lia.
    rewrite (IH ts i) by (assumption || lia).
    replace (Z.testbit (if isCopy t0 then 128 else 0) (7 - Z.of_nat (S i)))
      with false; [reflexivity|].
    destruct (isCopy t0); [|now rewrite Z.bits_0].
    rewrite testbit_128. symmetry. apply Z.eqb_neq. lia.
Qed.

(** A shifted value and a value below the shift do not overlap. *)
Lemma lor_shiftl_add (a k n : Z) :
  0 <= n -> 0 <= k < 2 ^ n -> Z.lor (Z.shiftl a n) k = a * 2 ^ n + k.
Proof.
  intros Hn Hk. rewrite <- Z.shiftl_mul_pow2 by lia.
  rewrite Z.add_nocarry_lxor; [apply eq_sym, Z.lxor_lor|];
    apply Z.bits_inj'; intros m Hm; rewrite Z.land_spec, Z.bits_0;
    (destruct (Z.lt_ge_cases m n);
      [rewrite Z.shiftl_spec_low by lia; reflexivity
      |rewrite (testbit_above k n m) by lia; apply andb_false_r]).
Qed.

Lemma land_255 (x : Z) : Z.land x 255 = x mod 256.
Proof. exact (Z.land_ones x 8 ltac:(lia)). Qed.

Lemma land_15 (x : Z) : Z.land x 15 = x mod 16.
Proof. exact (Z.land_ones x 4 ltac:(lia)). Qed.

Lemma encodedPairVal_eq (o l : nat) :
  (1 <= o <= 4096)%nat -> (3 <= l <= 18)%nat ->
  encodedPairVal o l = (Z.of_nat o - 1) * 16 + (Z.of_nat l - 3).
Proof.
  intros Ho Hl. unfold encodedPairVal, uint16.
  rewrite land_15, (Z.mod_small (Z.of_nat l - 3)) by lia.
  rewrite (lor_shiftl_add _ _ 4) by lia.
  change (2 ^ 4) with 16. apply Z.mod_small. lia.
Qed.

(** The decoder unpacks what the encoder packed. *)
Lemma unpack_pack (o l : nat) :
  (1 <= o <= 4096)%nat -> (3 <= l <= 18)%nat ->
  let v := encodedPairVal o l in
  let byte1 := z2b (Z.land v 255) in
  let byte2 := z2b (Z.land (Z.shiftr v 8) 255) in
  unpackOffset byte1 byte2 = o /\ unpackCount byte1 = l.
Proof.
  intros Ho Hl. cbv zeta. rewrite encodedPairVal_eq by assumption.
  set (v := (Z.of_nat o - 1) * 16 + (Z.of_nat l - 3)).
  assert (Hv : 0 <= v < 65536) by (unfold v; lia).
  unfold unpackOffset, unpackCount, uint16.
  rewrite !b2z_z2b, !land_255, !Z.mod_mod by lia.
  rewrite !Z.shiftr_div_pow2, Z.shiftl_mul_pow2 by lia.
  change (2 ^ 8) with 256. change (2 ^ 4) with 16.
  rewrite land_15.
  rewrite (Z.mod_small (v / 256 mod 256 * 16))
    by (Z.div_mod_to_equations; lia).
  rewrite Z.lor_comm, <- (Z.shiftl_mul_pow2 _ 4) by lia.
  rewrite (lor_shiftl_add _ _ 4) by (change (2 ^ 4) with 16;
    Z.div_mod_to_equations; lia).
  change (2 ^ 4) with 16.
  split.
  - assert (v / 256 mod 256 * 16 + v mod 256 / 16 = Z.of_nat o - 1)
      by (unfold v; Z.div_mod_to_equations; lia).
    lia.
  - assert (v mod 256 mod 16 = Z.of_nat l - 3)
      by (unfold v; Z.div_mod_to_equations; lia).
    lia.
Qed.

(** [128 >> c] is the bit the encoder sets for a copy. *)
Lemma flag_bit (c : nat) :
  (c < 8)%nat -> Z.shiftr 128 (Z.of_nat c) = Z.shiftl 1 (7 - Z.of_nat c).
Proof.
  intros Hc. do 8 (destruct c as [|c]; [reflexivity|]). lia.
Qed.

(** ** The encoder writes the wire format *)

Lemma lor_mod256 (a b : Z) :
  Z.lor a b mod 256 = Z.lor (a mod 256) (b mod 256).
Proof.
  apply Z.bits_inj'. intros n Hn.
  rewrite Z.lor_spec, !testbit_mod256, Z.lor_spec.
  destruct (n <? 8); reflexivity.
Qed.

Lemma b2z_flagWith (cf : byte) (c : nat) (t : token) :
  (c < 8)%nat ->
  b2z (flagWith cf c t) =
  Z.lor (b2z cf) (if isCopy t then Z.shiftl 1 (7 - Z.of_nat c) else 0).
Proof.
  intros Hc. destruct t as [b|o l]; simpl.
  - now rewrite Z.lor_0_r.
  - rewrite b2z_z2b, lor_mod256.
    rewrite (Z.mod_small (b2z cf)) by apply b2z_range.
    f_equal. apply Z.mod_small.
    do 8 (destruct c as [|c]; [now compute|]). lia.
Qed.

(** Counting the bit of [t] does not change the finished control byte. *)
Lemma flag_step (cf : byte) (c : nat) (t : token) (ts : list token) :
  (c < 8)%nat ->
  Z.lor (b2z cf) (Z.shiftr (flagOf (8 - c) (t :: ts)) (Z.of_nat c)) =
  Z.lor (b2z (flagWith cf c t))
        (Z.shiftr (flagOf (8 - S c) ts) (Z.of_nat (S c))).
Proof.
  intros Hc. replace (8 - c)%nat with (S (8 - S c)) by lia.
  cbn [flagOf]. rewrite Z.shiftr_lor, Z.shiftr_shiftr by lia.
  rewrite b2z_flagWith by exact Hc. rewrite <- Z.lor_assoc.
  replace (1 + Z.of_nat c) with (Z.of_nat (S c)) by lia.
  f_equal. f_equal.
  destruct (isCopy t); [apply flag_bit; exact Hc|apply Z.shiftr_0_l].
Qed.

Lemma flagOf_nil (n : nat) : flagOf n [] = 0.
Proof. destruct n; reflexivity. Qed.

Section encoder_wire.
Local Open Scope nat_scope.

Lemma take_S_insert (l : list byte) (i : nat) (x : byte) :
  i < length l -> take (S i) (<[i:=x]> l) = take i l ++ [x].
Proof.
  intros H. rewrite (take_S_r _ _ x) by (apply list_lookup_insert_eq; exact H).
  now rewrite take_insert_ge by lia.
Qed.

Lemma take_SS_insert (l : list byte) (i : nat) (x y : byte) :
  S i < length l ->
  take (S (S i)) (<[S i:=y]> (<[i:=x]> l)) = take i l ++ [x; y].
Proof.
  intros H. rewrite take_S_insert by (rewrite length_insert; exact H).
  rewrite take_S_insert by lia. now rewrite <- app_assoc.
Qed.

Lemma take_flush (l : list byte) (fp op : nat) (cf z : byte) :
  fp < op -> op < length l ->
  take (S op) (<[op:=z]> (<[fp:=cf]> l)) = <[fp:=cf]> (take op l) ++ [z].
Proof.
  intros Hfp Hop. rewrite take_S_insert by (rewrite length_insert; exact Hop).
  now rewrite take_insert_lt by exact Hfp.
Qed.

(** One iteration of the encoder appends the bytes of its token, after
    reserving a control byte when the group of eight is complete. *)
Lemma compressStep_view (inputData : list byte) (st st1 : encState) :
  encInv st -> compressStep inputData st = Ok st1 ->
  let t := tokenAt inputData (inputPos st) in
  let cf := flagWith (currentFlag st) (bitCount st) t in
  encInv st1 /\
  length (outputBuffer st1) = length (outputBuffer st) /\
  inputPos st1 = inputPos st + tokenSpan t /\
  if decide (S (bitCount st) = 8) then
    bitCount st1 = 0 /\ flagPos st1 = outputPos st /\
    currentFlag st1 = Byte.x00 /\
    take (outputPos st1) (outputBuffer st1) =
      <[flagPos st := cf]> (take (outputPos st) (outputBuffer st))
        ++ Byte.x00 :: tokenBytes t
  else
    bitCount st1 = S (bitCount st) /\ flagPos st1 = flagPos st /\
    currentFlag st1 = cf /\
    take (outputPos st1) (outputBuffer st1) =
      take (outputPos st) (outputBuffer st) ++ tokenBytes t.
Proof.
  destruct st as [buf ip op cf c fp]. unfold encInv, compressStep, tokenAt.
  cbn [outputBuffer inputPos outputPos currentFlag bitCount flagPos].
  intros (Hfp & Hop & Hc).
  destruct (decide (length buf <= op)) as [|Hcap]; [discriminate|].
  destruct (searchAt inputData ip) as [[o l]|] eqn:E; unfold flushFlag;
    cbn [outputBuffer inputPos outputPos currentFlag bitCount flagPos];
    destruct (decide (S c = 8)) as [Hfull|Hpart];
    repeat match goal with
    | |- context [decide (length ?b <= ?n)] =>
        destruct (decide (length b <= n)); [discriminate|]
    end;
    intros [= <-];
    cbn [outputBuffer inputPos outputPos currentFlag bitCount flagPos
         tokenSpan tokenBytes flagWith];
    cbn [outputBuffer inputPos outputPos currentFlag bitCount flagPos] in *;
    rewrite ?length_insert in *.
  - split; [lia|]. split; [reflexivity|]. split; [reflexivity|].
    do 3 (split; [reflexivity|]).
    rewrite take_SS_insert by (rewrite !length_insert; lia).
    rewrite take_flush by lia. now rewrite <- app_assoc.
  - split; [lia|]. split; [reflexivity|]. split; [reflexivity|].
    do 3 (split; [reflexivity|]).
    apply take_SS_insert. lia.
  - split; [lia|]. split; [reflexivity|]. split; [lia|].
    do 3 (split; [reflexivity|]).
    rewrite take_S_insert by (rewrite !length_insert; lia).
    rewrite take_flush by lia. now rewrite <- app_assoc.
  - split; [lia|]. split; [reflexivity|]. split; [lia|].
    do 3 (split; [reflexivity|]).
    apply take_S_insert. lia.
Qed.

(** The loop of the encoder completes the stream it has begun with the
    wire format of the tokens still to come. *)
Lemma compressLoop_wire (inputData : list byte) (fuel : nat)
    (st st' : encState) :
  encInv st -> compressLoop fuel inputData st = Ok st' ->
  let ts := tokensFrom fuel inputData (inputPos st) in
  take (outputPos st') (<[flagPos st' := currentFlag st']> (outputBuffer st'))
  = <[flagPos st :=
        z2b (Z.lor (b2z (currentFlag st))
               (Z.shiftr (flagOf (8 - bitCount st) ts)
                         (Z.of_nat (bitCount st))))]>
      (take (outputPos st) (outputBuffer st))
    ++ wireBody (bitCount st) ts.
Proof.
  revert st. induction fuel as [|fuel IH]; intros st Hinv Hrun; cbv zeta.
  - cbn [compressLoop tokensFrom] in *.
    destruct (decide (inputPos st < length inputData)); [discriminate|].
    injection Hrun as <-. destruct Hinv as (Hfp & Hop & Hc).
    rewrite flagOf_nil, Z.shiftr_0_l, Z.lor_0_r, z2b_b2z. cbn [wireBody].
    rewrite app_nil_r. apply take_insert_lt. exact Hfp.
  - cbn [compressLoop tokensFrom] in *.
    destruct (decide (inputPos st < length inputData)) as [Hlt|Hge].
    + destruct (compressStep inputData st) as [st1| |] eqn:Estep;
        try discriminate.
      pose proof Hinv as (Hfp & Hop & Hc).
      apply compressStep_view in Estep as (Hinv1 & Hlen & Hip & Hcase);
        [|exact Hinv].
      rewrite (IH st1 Hinv1 Hrun). rewrite Hip.
      set (t := tokenAt inputData (inputPos st)) in *.
      set (ts := tokensFrom fuel inputData (inputPos st + tokenSpan t)).
      cbn [wireBody]. rewrite flag_step by exact Hc.
      destruct (decide (S (bitCount st) = 8)) as [Hfull|Hpart].
      * destruct Hcase as (-> & -> & -> & ->).
        replace (8 - S (bitCount st)) with 0 by lia.
        cbn [flagOf]. rewrite Z.shiftr_0_l, Z.lor_0_r, z2b_b2z.
        rewrite b2z_x00, Z.lor_0_l, Nat.sub_0_r. change (Z.of_nat 0) with 0%Z.
        rewrite Z.shiftr_0_r.
        rewrite insert_app_r_alt
          by (rewrite length_insert, length_take; lia).
        rewrite length_insert, length_take.
        replace (outputPos st - outputPos st `min` length (outputBuffer st))
          with 0 by lia.
        cbn [list_insert]. now rewrite <- app_assoc.
      * destruct Hcase as (-> & -> & -> & ->).
        rewrite insert_app_l by (rewrite length_take; lia).
        now rewrite <- app_assoc.
    + injection Hrun as <-. destruct Hinv as (Hfp & Hop & Hc).
      rewrite flagOf_nil, Z.shiftr_0_l, Z.lor_0_r, z2b_b2z. cbn [wireBody].
      rewrite app_nil_r. apply take_insert_lt. exact Hfp.
Qed.

End encoder_wire.

Lemma estimatedOutputSize_ge (n : nat) : (128 <= estimatedOutputSize n)%nat.
Proof.
  unfold estimatedOutputSize, outputBufferSlack. repeat case_decide; lia.
Qed.

(** A successful run of the encoder returns the wire format of its trace. *)
Lemma coreCompressV1_wire (inputData s : list byte) :
  coreCompressV1 inputData = Ok s -> s = wire (encoderTokens inputData).
Proof.
  unfold coreCompressV1, encoderTokens.
  destruct (decide (length inputData = O)) as [Hnil|Hne].
  - intros [= <-]. rewrite Hnil. cbn [tokensFrom].
    destruct (decide _); reflexivity.
  - pose proof (estimatedOutputSize_ge (length inputData)) as Hest.
    rewrite length_replicate.
    destruct (decide (estimatedOutputSize (length inputData) <= 0)%nat);
      [lia|].
    destruct (compressLoop _ _ _) as [st'| |] eqn:Erun; try discriminate.
    intros [= <-].
    apply compressLoop_wire in Erun.
    + cbn [outputBuffer inputPos outputPos currentFlag bitCount flagPos]
        in Erun.
      rewrite Erun.
      destruct (estimatedOutputSize (length inputData)) as [|e]; [lia|].
      destruct (length inputData) as [|len'] eqn:En; [lia|].
      cbn [tokensFrom]. rewrite decide_True by lia.
      cbn [wire replicate list_insert take].
      rewrite b2z_x00, Z.lor_0_l. change (Z.of_nat 0) with 0.
      rewrite Z.shiftr_0_r. reflexivity.
    + unfold encInv.
      cbn [outputBuffer inputPos outputPos currentFlag bitCount flagPos].
      rewrite length_insert, length_replicate. lia.
Qed.

(** ** The decoder reads the wire format *)

Section decoder_wire.
Variable X : list byte.
Variable size : Z.
Hypothesis Hsize : Z.of_nat (length X) <= size.
Hypothesis Hfits : size < 4294967296.

Lemma below_target (p : nat) :
  (p < length X)%nat -> uint32 (Z.of_nat (length (take p X))) < size.
Proof.
  intros Hp. rewrite length_take, Nat.min_l by lia.
  unfold uint32. rewrite Z.mod_small; lia.
Qed.

(** A copy whose source lies in the output reproduces the input. *)
Lemma copyLoop_take (count o p : nat) :
  (1 <= o <= p)%nat -> (p + count <= length X)%nat ->
  (forall i : nat, (i < count)%nat -> X !! (p + i)%nat = X !! (p + i - o)%nat) ->
  copyLoop count o size (take p X) = take (p + count) X.
Proof.
  revert p. induction count as [|count IH]; intros p Ho Hp Hsrc.
  - cbn [copyLoop]. f_equal. lia.
  - cbn [copyLoop].
    rewrite decide_False by (pose proof (below_target p ltac:(lia)); lia).
    rewrite length_take, Nat.min_l by lia.
    rewrite decide_False by lia.
    rewrite lookup_take_lt by lia.
    assert (Hlook : X !! p = X !! (p - o)%nat).
    { pose proof (Hsrc O ltac:(lia)) as H0.
      now rewrite Nat.add_0_r in H0. }
    destruct (lookup_lt_is_Some_2 X p ltac:(lia)) as [b Hb].
    rewrite <- Hlook, Hb. cbn [default from_option id].
    rewrite <- (take_S_r X p b Hb).
    rewrite IH; [f_equal; lia|lia|lia|].
    intros i Hi. pose proof (Hsrc (S i) ltac:(lia)) as H1.
    now replace (p + S i)%nat with (S p + i)%nat in H1 by lia.
Qed.

(** The decoder reads one token of the wire format. *)
Lemma decodeToken_wire (t : token) (ts : list token) (pre rest : list byte)
    (p : nat) (st : decState) :
  parses X p (t :: ts) ->
  outBuffer st = take p X -> streamIdx st = length pre ->
  decodeToken (pre ++ tokenBytes t ++ rest) size (isCopy t) st =
  Continue {| outBuffer := take (p + tokenSpan t) X;
              streamIdx := length (pre ++ tokenBytes t);
              controlByte := controlByte st;
              bitsLeft := bitsLeft st |}.
Proof.
  intros Hparse Hout Hidx. unfold decodeToken. rewrite Hout, Hidx.
  destruct t as [b|o l]; cbn [isCopy tokenBytes tokenSpan parses app] in *.
  - destruct Hparse as (Hb & _).
    pose proof (lookup_lt_Some _ _ _ Hb) as Hp.
    rewrite decide_False by (rewrite !length_app; simpl; lia).
    rewrite decide_False by (pose proof (below_target p Hp); lia).
    rewrite (list_lookup_middle pre rest b (length pre) eq_refl).
    cbn [default from_option id]. rewrite <- (take_S_r X p b Hb).
    rewrite length_app. cbn [length].
    do 2 f_equal; [f_equal; lia|lia].
  - destruct Hparse as (Ho & Hl & Hop & Hfit & Hsrc & _).
    destruct (unpack_pack o l Ho Hl) as (Hoff & Hcnt).
    rewrite decide_False by (rewrite !length_app; simpl; lia).
    rewrite (list_lookup_middle pre _ _ (length pre) eq_refl).
    rewrite lookup_app_r by lia.
    replace (S (length pre) - length pre)%nat with 1%nat by lia.
    cbn [lookup list_lookup default from_option id app].
    rewrite Hoff, Hcnt.
    rewrite copyLoop_take by (assumption || lia).
    rewrite length_app. cbn [length].
    do 2 f_equal. lia.
Qed.

(** The decoding loop rebuilds the input from the wire format of tokens
    that describe it. *)
Lemma decodeLoop_wire (ts : list token) :
  forall (fuel c p : nat) (pre : list byte) (st : decState),
  size = Z.of_nat (length X) ->
  parses X p ts -> (p <= length X)%nat -> (length X <= p + fuel)%nat ->
  (c < 8)%nat -> ctrlOK c (controlByte st) ts ->
  outBuffer st = take p X -> streamIdx st = length pre ->
  bitsLeft st = 8 - Z.of_nat c ->
  decodeLoop fuel (pre ++ wireBody c ts) size st = Ok X.
Proof.
  induction ts as [|t ts IH];
    intros fuel c p pre st Heq Hparse Hp Hfuel Hc Hctrl Hout Hidx Hbits.
  - cbn [parses] in Hparse. subst p.
    assert (Hdone : ~ uint32 (Z.of_nat (length (outBuffer st))) < size).
    { rewrite Hout, take_ge, Heq by lia.
      unfold uint32. rewrite Z.mod_small; lia. }
    destruct fuel; cbn [decodeLoop]; rewrite decide_False by exact Hdone;
      rewrite Hout, take_ge by lia; reflexivity.
  - assert (Hlt : (p < length X)%nat).
    { destruct t; cbn [parses] in Hparse.
      - destruct Hparse as (Hb & _). exact (lookup_lt_Some _ _ _ Hb).
      - lia. }
    destruct fuel as [|fuel]; [lia|]. cbn [decodeLoop].
    rewrite decide_True by (rewrite Hout; apply below_target; exact Hlt).
    unfold decodeStep.
    rewrite decide_False by (rewrite Hidx, length_app; lia).
    rewrite msb_test.
    assert (Hbit : Z.testbit (b2z (controlByte st)) 7 = isCopy t)
      by (apply (Hctrl O t); [lia|reflexivity]).
    rewrite Hbit, Hbits. cbn [wireBody].
    assert (Hnext : parses X (p + tokenSpan t) ts /\
                    (p + tokenSpan t <= length X)%nat /\
                    (1 <= tokenSpan t)%nat).
    { destruct t; cbn [parses tokenSpan] in *.
      - replace (p + 1)%nat with (S p) by lia.
        destruct Hparse as (_ & H). split; [exact H|lia].
      - destruct Hparse as (_ & ? & _ & ? & _ & H). split; [exact H|lia]. }
    destruct Hnext as (Hparse' & Hp' & Hspan).
    destruct (decide (S c = 8%nat)) as [Hfull|Hpart].
    + rewrite decide_True by lia.
      rewrite decide_False by (rewrite Hidx, length_app; simpl; lia).
      rewrite Hidx, (list_lookup_middle pre _ _ (length pre) eq_refl).
      cbn [default from_option id].
      change (pre ++ z2b (flagOf 8 ts) :: tokenBytes t ++ wireBody 0 ts)
        with (pre ++ [z2b (flagOf 8 ts)] ++ tokenBytes t ++ wireBody 0 ts).
      rewrite (app_assoc pre).
      rewrite (decodeToken_wire t ts _ _ p) by
        (try exact Hparse; cbn [outBuffer streamIdx]; try assumption;
         rewrite length_app; simpl; lia).
      cbn [controlByte bitsLeft]. rewrite (app_assoc _ (tokenBytes t)).
      apply (IH fuel O (p + tokenSpan t)%nat);
        cbn [outBuffer streamIdx controlByte bitsLeft];
        try assumption; try reflexivity; try lia.
      intros i t' Hi Ht'. rewrite b2z_z2b, testbit_mod256.
      replace (7 - Z.of_nat i <? 8) with true by lia.
      apply (flagOf_testbit 8 ts i t'); [lia|lia|exact Ht'].
    + rewrite decide_False by lia.
      rewrite (decodeToken_wire t ts _ _ p) by
        (try exact Hparse; cbn [outBuffer streamIdx]; assumption).
      cbn [controlByte bitsLeft]. rewrite (app_assoc _ (tokenBytes t)).
      apply (IH fuel (S c) (p + tokenSpan t)%nat);
        cbn [outBuffer streamIdx controlByte bitsLeft];
        try assumption; try reflexivity; try lia.
      intros i t' Hi Ht'.
      replace (7 - Z.of_nat i) with (6 - Z.of_nat i + 1) by lia.
      rewrite shifted_bit by lia.
      replace (6 - Z.of_nat i) with (7 - Z.of_nat (S i)) by lia.
      apply (Hctrl (S i) t'); [lia|exact Ht'].
Qed.

End decoder_wire.

(** Decoding the wire format of tokens that describe [X] gives [X]. *)
Lemma lzssSimpleDecompress_wire (X : list byte) (ts : list token) :
  Z.of_nat (length X) < 4294967296 -> parses X O ts ->
  lzssSimpleDecompress (wire ts) (Z.of_nat (length X)) = Ok X.
Proof.
  intros Hfits Hparse. unfold lzssSimpleDecompress.
  destruct ts as [|t ts].
  - cbn [parses] in Hparse. cbn [wire length].
    rewrite decide_True by reflexivity. rewrite decide_False by lia.
    destruct X; [reflexivity|discriminate].
  - cbn [wire length]. rewrite decide_False by discriminate.
    cbn [lookup list_lookup default from_option id].
    apply (decodeLoop_wire X _ (Z.le_refl _) Hfits (t :: ts) _ O O
             [z2b (flagOf 8 (t :: ts))]);
      cbn [outBuffer streamIdx controlByte bitsLeft];
      try assumption; try reflexivity; try lia.
    intros i t' Hi Ht'. rewrite b2z_z2b, testbit_mod256.
    replace (7 - Z.of_nat i <? 8) with true by lia.
    apply (flagOf_testbit 8 (t :: ts) i t'); [lia|lia|exact Ht'].
Qed.

(** ** Capacity of the output buffer *)

Section capacity.
Local Open Scope nat_scope.
Variable inputData : list byte.

(** Bytes an iteration needs in the buffer. *)
Let need (st : encState) : nat :=
  (if decide (S (bitCount st) = 8) then 1 else 0) +
  length (tokenBytes (tokenAt inputData (inputPos st))).

Lemma compressStep_outputPos (st st1 : encState) :
  encInv st -> compressStep inputData st = Ok st1 ->
  outputPos st1 = outputPos st + need st.
Proof.
  intros Hinv Hstep. pose proof Hinv as (Hfp & Hop & Hc).
  apply compressStep_view in Hstep as (Hinv1 & Hlen & Hip & Hcase);
    [|exact Hinv].
  destruct Hinv1 as (_ & Hop1 & _). unfold need.
  destruct (decide (S (bitCount st) = 8));
    destruct Hcase as (_ & _ & _ & Htake);
    apply (f_equal length) in Htake;
    rewrite length_app, ?length_insert, !length_take in Htake;
    cbn [length] in *; lia.
Qed.

(** The only failure of an iteration is the capacity error, and it is
    raised exactly when the bytes of the iteration do not fit. *)
Lemma compressStep_result (st : encState) :
  encInv st ->
  if decide (outputPos st + need st <= length (outputBuffer st))
  then exists st1, compressStep inputData st = Ok st1
  else compressStep inputData st = Err errBufferTooSmall.
Proof.
  destruct st as [buf ip op cf c fp]. unfold encInv, need, compressStep, tokenAt.
  cbn [outputBuffer inputPos outputPos currentFlag bitCount flagPos].
  intros (Hfp & Hop & Hc).
  destruct (searchAt inputData ip) as [[o l]|]; unfold flushFlag;
    cbn [outputBuffer inputPos outputPos currentFlag bitCount flagPos
         tokenBytes length];
    destruct (decide (S c = 8)) as [Hfull|Hpart];
    repeat match goal with
    | |- context [decide (?a <= ?b)] => destruct (decide (a <= b))
    end;
    cbn [outputBuffer inputPos outputPos currentFlag bitCount flagPos] in *;
    rewrite ?length_insert in *;
    solve [reflexivity | eexists; reflexivity | lia].
Qed.

Lemma need_budget (st : encState) :
  encInv st -> inputPos st < length inputData ->
  inputPos st + tokenSpan (tokenAt inputData (inputPos st))
    <= length inputData /\
  8 * need st + (if decide (S (bitCount st) = 8) then 0 else S (bitCount st))
    <= 9 * tokenSpan (tokenAt inputData (inputPos st)) + bitCount st.
Proof.
  intros (Hfp & Hop & Hc) Hip. unfold need, tokenAt.
  destruct (searchAt inputData (inputPos st)) as [[o l]|] eqn:E;
    cbn [tokenSpan tokenBytes length].
  - apply searchAt_Some in E. destruct (decide _); lia.
  - destruct (decide _); lia.
Qed.

Lemma compressStep_budget (st st1 : encState) :
  encInv st -> inputPos st < length inputData -> encBudget st ->
  compressStep inputData st = Ok st1 ->
  encInv st1 /\ encBudget st1 /\ inputPos st < inputPos st1 /\
  inputPos st1 <= length inputData /\
  length (outputBuffer st1) = length (outputBuffer st).
Proof.
  intros Hinv Hip Hbud Hstep.
  pose proof (compressStep_outputPos st st1 Hinv Hstep) as Hop1.
  pose proof (need_budget st Hinv Hip) as (Hspan & Hneed).
  pose proof (tokenSpan_tokenAt inputData (inputPos st)) as Hpos.
  apply compressStep_view in Hstep as (Hinv1 & Hlen & Hip1 & Hcase);
    [|exact Hinv].
  unfold encBudget in *.
  split; [exact Hinv1|].
  destruct (decide (S (bitCount st) = 8));
    destruct Hcase as (Hc1 & _); lia.
Qed.

(** The loop never runs out of fuel, fails with the capacity error only,
    and succeeds when nine eighths of the input fit in the buffer. *)
Lemma compressLoop_result (fuel : nat) (st : encState) :
  encInv st -> encBudget st ->
  inputPos st <= length inputData -> length inputData <= inputPos st + fuel ->
  match compressLoop fuel inputData st with
  | Ok st' => length (outputBuffer st') = length (outputBuffer st) /\
              outputPos st' <= length (outputBuffer st')
  | Err e => e = errBufferTooSmall /\
             8 * length (outputBuffer st) + 7 < 8 + 9 * length inputData
  | Stuck => False
  end.
Proof.
  revert st. induction fuel as [|fuel IH]; intros st Hinv Hbud Hip Hfuel;
    cbn [compressLoop];
    (destruct (decide (inputPos st < length inputData)) as [Hlt|Hge];
      [|split; [reflexivity|apply Hinv]]); [lia|].
  pose proof (compressStep_result st Hinv) as Hres.
  pose proof (need_budget st Hinv Hlt) as (Hspan & Hneed).
  destruct (decide _) as [Hfit|Hover].
  - destruct Hres as [st1 Hstep]. rewrite Hstep.
    pose proof (compressStep_budget st st1 Hinv Hlt Hbud Hstep)
      as (Hinv1 & Hbud1 & Hadv & Hip1 & Hlen).
    specialize (IH st1 Hinv1 Hbud1 Hip1 ltac:(lia)).
    destruct (compressLoop fuel inputData st1); [|rewrite <- Hlen|]; 
      try exact IH.
    destruct IH as (IH1 & IH2). split; [congruence|exact IH2].
  - rewrite Hres. split; [reflexivity|].
    unfold encBudget in Hbud.
    destruct (decide (S (bitCount st) = 8)); lia.
Qed.

End capacity.

Section capacity_core.
Local Open Scope nat_scope.

(** [coreCompressV1] terminates; it fails with the capacity error only. *)
Lemma coreCompressV1_result (inputData : list byte) :
  match coreCompressV1 inputData with
  | Ok s => length s <= estimatedOutputSize (length inputData)
  | Err e => e = errBufferTooSmall /\
             (16384 <= Z.of_nat (length inputData))%Z
  | Stuck => False
  end.
Proof.
  unfold coreCompressV1.
  destruct (decide (length inputData = 0)) as [Hnil|Hne]; [simpl; lia|].
  pose proof (estimatedOutputSize_ge (length inputData)) as Hest.
  rewrite length_replicate.
  destruct (decide (estimatedOutputSize (length inputData) <= 0)); [lia|].
  match goal with |- context [compressLoop ?f ?d ?s] =>
    pose proof (compressLoop_result d f s) as H
  end.
  unfold encInv, encBudget in H.
  cbn [outputBuffer inputPos outputPos currentFlag bitCount flagPos] in H.
  rewrite length_insert, length_replicate in H.
  specialize (H ltac:(lia) ltac:(lia) ltac:(lia) ltac:(lia)).
  destruct (compressLoop _ _ _) as [st'| |].
  - destruct H as (Hlen & Hop). rewrite length_take, length_insert. lia.
  - destruct H as (-> & Hcap). split; [reflexivity|].
    revert Hcap. unfold estimatedOutputSize, outputBufferSlack.
    repeat case_decide; lia.
  - exact H.
Qed.

End capacity_core.

(** ** Inputs the match finder cannot compress *)

Section unmatched_inputs.
Local Open Scope nat_scope.

(** Every token costs at least nine bits. *)
Lemma wireBody_length (c : nat) (ts : list token) :
  c < 8 -> 9 * length ts + c <= 8 * length (wireBody c ts) + 7.
Proof.
  revert c. induction ts as [|t ts IH]; intros c Hc; cbn [wireBody length].
  - lia.
  - assert (1 <= length (tokenBytes t)) by (destruct t; simpl; lia).
    destruct (decide (S c = 8)).
    + cbn [length]. rewrite length_app.
      specialize (IH 0 ltac:(lia)). lia.
    + rewrite length_app. specialize (IH (S c) ltac:(lia)). lia.
Qed.

Lemma tokensFrom_literals (inputData : list byte) (fuel p : nat) :
  (forall q, searchAt inputData q = None) ->
  p <= length inputData -> length inputData <= p + fuel ->
  length (tokensFrom fuel inputData p) = length inputData - p.
Proof.
  intros Hnone. revert p. induction fuel as [|fuel IH]; intros p Hp Hfuel;
    cbn [tokensFrom];
    (destruct (decide (p < length inputData)); [|simpl; lia]); [lia|].
  unfold tokenAt. rewrite Hnone. cbn [tokenSpan length].
  rewrite IH by lia. lia.
Qed.

(** An input without any match needs nine eighths of its size, which the
    buffer of a large input does not have. *)
Lemma unmatched_input_overflows (inputData : list byte) :
  (forall q, searchAt inputData q = None) ->
  (16384 <= Z.of_nat (length inputData))%Z ->
  coreCompressV1 inputData = Err errBufferTooSmall.
Proof.
  intros Hnone Hbig.
  pose proof (coreCompressV1_result inputData) as Hres.
  destruct (coreCompressV1 inputData) as [s|e|] eqn:E.
  - exfalso. apply coreCompressV1_wire in E. subst s.
    unfold encoderTokens in Hres.
    pose proof (tokensFrom_literals inputData (length inputData) 0 Hnone
                  ltac:(lia) ltac:(lia)) as Hlen.
    destruct (tokensFrom _ _ _) as [|t ts] eqn:Ets;
      [simpl in Hlen; lia|].
    cbn [wire length] in Hres.
    pose proof (wireBody_length 0 (t :: ts) ltac:(lia)) as Hbody.
    rewrite Hlen in Hbody.
    revert Hres. unfold estimatedOutputSize, outputBufferSlack.
    repeat case_decide; lia.
  - destruct Hres as (-> & _). reflexivity.
  - destruct Hres.
Qed.

Lemma slice_take (lo l k : nat) (s : list byte) :
  k <= l -> take k (slice lo (lo + l) s) = slice lo (lo + k) s.
Proof.
  intros H. unfold slice. rewrite take_take. f_equal. lia.
Qed.

(** Without a repeated three-byte pattern there is no match. *)
Lemma distinct_trigrams_unmatched (inputData : list byte) :
  (forall q p, q < p -> p + 3 <= length inputData ->
     slice q (q + 3) inputData <> slice p (p + 3) inputData) ->
  forall p, searchAt inputData p = None.
Proof.
  intros Hdistinct p.
  destruct (searchAt inputData p) as [[o l]|] eqn:E; [exfalso|reflexivity].
  apply searchAt_Some in E as (Hl & Hfit & Hlo & Hop & _ & Heq).
  apply (Hdistinct (p - o) p); [lia|lia|].
  rewrite <- (slice_take (p - o) l 3), <- (slice_take p l 3) by lia.
  now rewrite Heq.
Qed.

Lemma trigramsFrom_sound (l : list byte) :
  forall (i : Z) (k : nat), trigramsFrom i l = true -> k + 3 <= length l ->
  exists a b c, slice k (k + 3) l = [a; b; c] /\
                trigramIndex a b c = (i + Z.of_nat k)%Z.
Proof.
  induction l as [|a tl IH]; intros i k Hchk Hk; [simpl in Hk; lia|].
  destruct tl as [|b [|c tl']]; try (simpl in Hk; lia).
  cbn [trigramsFrom] in Hchk. apply andb_prop in Hchk as (Hhere & Hrest).
  destruct k as [|k].
  - exists a, b, c. split; [reflexivity|]. apply Z.eqb_eq in Hhere. lia.
  - destruct (IH (i + 1)%Z k Hrest) as (a' & b' & c' & Hs & Hi);
      [simpl in *; lia|].
    exists a', b', c'. split; [exact Hs|lia].
Qed.

Lemma trigramsFrom_distinct (l : list byte) :
  trigramsFrom 0 l = true ->
  forall q p, q < p -> p + 3 <= length l ->
    slice q (q + 3) l <> slice p (p + 3) l.
Proof.
  intros Hchk q p Hqp Hp Heq.
  destruct (trigramsFrom_sound l 0%Z q Hchk ltac:(lia)) as (a & b & c & Hq & Hiq).
  destruct (trigramsFrom_sound l 0%Z p Hchk ltac:(lia)) as (a' & b' & c' & Hp' & Hip).
  rewrite Hq, Hp' in Heq. injection Heq as -> -> ->. lia.
Qed.

Lemma incompressible_trigrams : trigramsFrom 0 incompressible = true.
Proof. vm_compute. reflexivity. Qed.

Lemma incompressible_length : Z.of_nat (length incompressible) = 16386%Z.
Proof. vm_compute. reflexivity. Qed.

Lemma incompressible_unmatched (p : nat) : searchAt incompressible p = None.
Proof.
  apply distinct_trigrams_unmatched, trigramsFrom_distinct,
    incompressible_trigrams.
Qed.

End unmatched_inputs.

(** ** The decoder on arbitrary streams *)

Lemma unpackOffset_pos (byte1 byte2 : byte) : (1 <= unpackOffset byte1 byte2)%nat.
Proof.
  unfold unpackOffset, uint16.
  pose proof (b2z_range byte1). pose proof (b2z_range byte2).
  assert (0 <= Z.lor (Z.shiftr (b2z byte1) 4)
                     (Z.shiftl (b2z byte2) 4 mod 65536)).
  { apply Z.lor_nonneg. split.
    - apply Z.shiftr_nonneg. lia.
    - apply Z.mod_pos_bound. lia. }
  lia.
Qed.

Lemma unpackCount_range (byte1 : byte) : (3 <= unpackCount byte1 <= 18)%nat.
Proof.
  unfold unpackCount. rewrite land_15.
  pose proof (Z.mod_pos_bound (b2z byte1) 16 ltac:(lia)). lia.
Qed.

(** What a copy operation appends: zero where the offset reaches before
    the start of the output, the byte [offset] places back elsewhere; it
    stops early only at the target size. *)
Lemma copyLoop_ext (count offset : nat) (size : Z) (out : list byte) :
  (1 <= offset)%nat ->
  exists ext,
    copyLoop count offset size out = out ++ ext /\
    (length ext <= count)%nat /\
    (forall (i : nat) (b : byte), ext !! i = Some b ->
       if decide (length out + i < offset)%nat then b = Byte.x00
       else (out ++ ext) !! (length out + i - offset)%nat = Some b) /\
    (length ext = count \/
     uint32 (Z.of_nat (length (out ++ ext))) >= size).
Proof.
  intros Ho. revert out. induction count as [|count IH]; intros out.
  - exists []. rewrite app_nil_r. split; [reflexivity|]. split; [simpl; lia|].
    split; [intros i b H; discriminate|]. left. reflexivity.
  - cbn [copyLoop].
    destruct (decide (uint32 (Z.of_nat (length out)) >= size)) as [Hfull|Hroom].
    + exists []. rewrite app_nil_r. split; [reflexivity|]. split; [simpl; lia|].
      split; [intros i b H; discriminate|]. right. exact Hfull.
    + set (b0 := if decide (length out < offset)%nat then Byte.x00
                 else default Byte.x00 (out !! (length out - offset)%nat)).
      assert (Hstep : copyLoop count offset size (out ++ [b0]) =
        (if decide (length out < offset)%nat
         then copyLoop count offset size (out ++ [Byte.x00])
         else copyLoop count offset size
                (out ++ [default Byte.x00
                           (out !! (length out - offset)%nat)])))
        by (unfold b0; destruct (decide _); reflexivity).
      rewrite <- Hstep.
      destruct (IH (out ++ [b0])) as (ext & Heq & Hlen & Hbytes & Hstop).
      exists (b0 :: ext). rewrite Heq, <- app_assoc. cbn [app].
      split; [reflexivity|]. split; [simpl; lia|]. split.
      * intros [|i] b Hb.
        -- injection Hb as <-. rewrite Nat.add_0_r. unfold b0.
           destruct (decide (length out < offset)%nat) as [|Hin];
             [reflexivity|].
           rewrite lookup_app_l by lia.
           destruct (lookup_lt_is_Some_2 out (length out - offset)%nat
                       ltac:(lia)) as [x Hx].
           rewrite Hx. reflexivity.
        -- cbn in Hb. specialize (Hbytes i b Hb).
           rewrite length_app in Hbytes. cbn [length] in Hbytes.
           rewrite <- app_assoc in Hbytes. cbn [app] in Hbytes.
           replace (length out + 1 + i)%nat with (length out + S i)%nat
             in Hbytes by lia.
           exact Hbytes.
      * rewrite <- app_assoc in Hstop. cbn [app] in Hstop.
        destruct Hstop as [Hall|Hfull]; [left; simpl; lia|right; exact Hfull].
Qed.

Section decoder_total.
Variable stream : list byte.
Variable size : Z.
Hypothesis Hsize : 0 <= size < 4294967296.

Lemma copyLoop_bounds (count offset : nat) (out : list byte) :
  Z.of_nat (length out) <= size ->
  Z.of_nat (length (copyLoop count offset size out)) <= size /\
  (length out <= length (copyLoop count offset size out))%nat /\
  ((1 <= count)%nat -> Z.of_nat (length out) < size ->
   (length out < length (copyLoop count offset size out))%nat).
Proof.
  revert out. induction count as [|count IH]; intros out Hout;
    cbn [copyLoop]; [lia|].
  unfold uint32. rewrite Z.mod_small by lia.
  destruct (decide (Z.of_nat (length out) >= size)); [lia|].
  destruct (decide (length out < offset)%nat);
    match goal with |- context [copyLoop count offset size ?o] =>
      destruct (IH o) as (H1 & H2 & _);
        [rewrite length_app; simpl; lia|];
      rewrite length_app in H2; simpl in H2; lia
    end.
Qed.

(** An iteration entered below the target either fails with one of the
    premature-end errors or extends the output, never past the target. *)
Lemma decodeStep_progress (st : decState) :
  Z.of_nat (length (outBuffer st)) < size ->
  match decodeStep stream size st with
  | Continue st' =>
      (length (outBuffer st) < length (outBuffer st'))%nat /\
      Z.of_nat (length (outBuffer st')) <= size
  | Break _ => False
  | Fail e => e = errStreamPrematureEnd \/ e = errPrematureEndCopy \/
              e = errPrematureEndLiteral
  end.
Proof.
  intros Hbelow.
  assert (Htoken : forall (b : bool) (s : decState),
    outBuffer s = outBuffer st ->
    match decodeToken stream size b s with
    | Continue st' =>
        (length (outBuffer st) < length (outBuffer st'))%nat /\
        Z.of_nat (length (outBuffer st')) <= size
    | Break _ => False
    | Fail e => e = errStreamPrematureEnd \/ e = errPrematureEndCopy \/
                e = errPrematureEndLiteral
    end).
  { intros b s Hs. unfold decodeToken. rewrite Hs. destruct b.
    - destruct (decide _); [right; left; reflexivity|].
      cbn [outBuffer].
      match goal with |- context [copyLoop ?c ?o size ?b] =>
        pose proof (copyLoop_bounds c o b ltac:(lia)) as (H1 & _ & H3);
        pose proof (unpackCount_range
                      (default Byte.x00 (stream !! streamIdx s)))
      end.
      split; [apply H3; lia|exact H1].
    - destruct (decide _); [right; right; reflexivity|].
      unfold uint32. rewrite Z.mod_small by lia.
      destruct (decide _); [lia|]. cbn [outBuffer].
      rewrite length_app. simpl. lia. }
  unfold decodeStep.
  destruct (decide _); [left; reflexivity|].
  destruct (decide (bitsLeft st - 1 = 0)).
  - destruct (decide _).
    + unfold uint32. rewrite Z.mod_small by lia.
      destruct (decide _); [left; reflexivity|lia].
    + apply Htoken. reflexivity.
  - apply Htoken. reflexivity.
Qed.

Lemma decodeLoop_result (fuel : nat) (st : decState) :
  Z.of_nat (length (outBuffer st)) <= size ->
  size <= Z.of_nat (length (outBuffer st)) + Z.of_nat fuel ->
  match decodeLoop fuel stream size st with
  | Ok out => Z.of_nat (length out) = size
  | Err e => e = errStreamPrematureEnd \/ e = errPrematureEndCopy \/
             e = errPrematureEndLiteral
  | Stuck => False
  end.
Proof.
  revert st. induction fuel as [|fuel IH]; intros st Hle Hfuel;
    cbn [decodeLoop]; unfold uint32; rewrite Z.mod_small by lia;
    (destruct (decide (Z.of_nat (length (outBuffer st)) < size))
       as [Hbelow|Hdone]; [|lia]); [lia|].
  pose proof (decodeStep_progress st Hbelow) as Hstep.
  destruct (decodeStep stream size st) as [st'|st'|e].
  - apply IH; lia.
  - destruct Hstep.
  - exact Hstep.
Qed.

End decoder_total.

(** ** The container and the file paths *)

Lemma getUint32_range (off : nat) (b : list byte) :
  0 <= getUint32 off b < 4294967296.
Proof.
  unfold getUint32.
  set (b0 := b2z (default Byte.x00 (b !! off))).
  set (b1 := b2z (default Byte.x00 (b !! (off + 1)%nat))).
  set (b2 := b2z (default Byte.x00 (b !! (off + 2)%nat))).
  set (b3 := b2z (default Byte.x00 (b !! (off + 3)%nat))).
  assert (H0 : 0 <= b0 < 2 ^ 8) by apply b2z_range.
  assert (H1 : 0 <= b1 < 2 ^ 8) by apply b2z_range.
  assert (H2 : 0 <= b2 < 2 ^ 8) by apply b2z_range.
  assert (H3 : 0 <= b3 < 2 ^ 8) by apply b2z_range.
  set (v := Z.lor b0 (Z.lor (Z.shiftl b1 8)
                        (Z.lor (Z.shiftl b2 16) (Z.shiftl b3 24)))).
  assert (Hnn : 0 <= v).
  { unfold v. repeat (apply Z.lor_nonneg; split);
      try apply Z.shiftl_nonneg; lia. }
  split; [exact Hnn|].
  destruct (Z.lt_ge_cases v 4294967296) as [|Hge]; [assumption|exfalso].
  assert (Hpos : 0 < v) by lia.
  pose proof (Z.bit_log2 v Hpos) as Hbit.
  assert (Hlog : 32 <= Z.log2 v).
  { change 32 with (Z.log2 4294967296). apply Z.log2_le_mono. lia. }
  unfold v in Hbit at 1.
  rewrite !Z.lor_spec, !Z.shiftl_spec in Hbit by lia.
  rewrite (testbit_above b0 8), (testbit_above b1 8),
    (testbit_above b2 8), (testbit_above b3 8) in Hbit by lia.
  discriminate.
Qed.

Lemma uint32_le (x : Z) : 0 <= x -> 0 <= uint32 x <= x.
Proof.
  intros Hx. unfold uint32. split.
  - apply Z.mod_pos_bound. lia.
  - apply Z.mod_le; lia.
Qed.

(** What [readPCMPHeader] returns on success. *)
Lemma readPCMPHeader_Ok (buf : list byte) (u c : Z) :
  readPCMPHeader buf = Ok (u, c) ->
  (32 <= length buf)%nat /\ take 4 buf = signature /\
  u = getUint32 20 buf /\
  let remaining := uint32 (Z.of_nat (length buf) - 32) in
  c = (if decide (getUint32 24 buf = 0 \/ getUint32 24 buf > remaining)
       then remaining else getUint32 24 buf).
Proof.
  unfold readPCMPHeader, pcmpDataOffset.
  destruct (decide (length buf < 32)%nat); [discriminate|].
  destruct (decide (take 4 buf <> signature)) as [|Hsig]; [discriminate|].
  change (Z.of_nat 32) with 32.
  intros H. split; [lia|]. split; [destruct (decide (take 4 buf = signature));
    [assumption|contradiction]|].
  cbv zeta. destruct (decide _); injection H as <- <-; split; reflexivity.
Qed.

Lemma readPCMPHeader_clamped (buf : list byte) (u c : Z) :
  readPCMPHeader buf = Ok (u, c) ->
  0 <= u < 4294967296 /\ 0 <= c < 4294967296 /\
  c <= Z.of_nat (length buf) - 32 /\
  (c = 0 <-> uint32 (Z.of_nat (length buf) - 32) = 0).
Proof.
  intros H. apply readPCMPHeader_Ok in H as (Hlen & _ & -> & Hc).
  cbv zeta in Hc.
  pose proof (getUint32_range 20 buf) as Hu.
  pose proof (getUint32_range 24 buf) as Hf.
  pose proof (uint32_le (Z.of_nat (length buf) - 32) ltac:(lia)) as Hr.
  assert (Hr' : uint32 (Z.of_nat (length buf) - 32) < 4294967296)
    by (apply Z.mod_pos_bound; lia).
  split; [exact Hu|].
  destruct (decide _) as [Hclamp|Hkeep]; subst c.
  - split; [lia|]. split; [lia|]. tauto.
  - split; [lia|]. split; [lia|]. split; [lia|intros E; lia].
Qed.

Lemma readPCMPHeader_Err (buf : list byte) (e : error) :
  readPCMPHeader buf = Err e ->
  (e = errFileTooShort /\ (length buf < 32)%nat) \/
  (e = errInvalidSignature /\ (32 <= length buf)%nat /\
   take 4 buf <> signature).
Proof.
  unfold readPCMPHeader, pcmpDataOffset.
  destruct (decide (length buf < 32)%nat) as [Hshort|Hlong].
  - intros [= <-]. left. split; [reflexivity|exact Hshort].
  - destruct (decide (take 4 buf <> signature)) as [Hsig|Hsig].
    + intros [= <-]. right. split; [reflexivity|]. split; [lia|exact Hsig].
    + destruct (decide _); discriminate.
Qed.

Lemma readPCMPHeader_not_stuck (buf : list byte) : readPCMPHeader buf <> Stuck.
Proof.
  unfold readPCMPHeader.
  destruct (decide _); [discriminate|].
  destruct (decide _); [discriminate|].
  destruct (decide _); discriminate.
Qed.

(** The decoder terminates, with an output of the target length or with
    one of its four errors. *)
Lemma lzssSimpleDecompress_outcome (compressedStream : list byte)
    (uncompressedSize : Z) :
  0 <= uncompressedSize < 4294967296 ->
  match lzssSimpleDecompress compressedStream uncompressedSize with
  | Ok out => Z.of_nat (length out) = uncompressedSize
  | Err e =>
      (e = errStreamEmpty /\ compressedStream = [])
      \/ (compressedStream <> [] /\
          (e = errStreamPrematureEnd \/ e = errPrematureEndCopy \/
           e = errPrematureEndLiteral))
  | Stuck => False
  end.
Proof.
  intros Hsize. unfold lzssSimpleDecompress.
  destruct (decide (length compressedStream = O)) as [Hnil|Hne].
  - destruct (decide (uncompressedSize > 0)).
    + left. split; [reflexivity|].
      destruct compressedStream; [reflexivity|discriminate].
    + simpl. lia.
  - match goal with |- context [decodeLoop ?f _ _ ?s] =>
      pose proof (decodeLoop_result compressedStream uncompressedSize
                    Hsize f s) as H
    end.
    cbn [outBuffer length] in H.
    specialize (H ltac:(lia) ltac:(lia)).
    destruct (decodeLoop _ _ _ _); [exact H| |exact H].
    right. split; [|exact H].
    intros ->. apply Hne. reflexivity.
Qed.

(** ** Bytes after the stream, and smaller targets *)

Section decoder_extension.
Variables stream extra : list byte.
Variable size : Z.

Lemma decodeToken_app (b : bool) (st st' : decState) :
  decodeToken stream size b st = Continue st' ->
  decodeToken (stream ++ extra) size b st = Continue st'.
Proof.
  unfold decodeToken. cbv zeta. rewrite length_app. destruct b.
  - destruct (decide (length stream <= streamIdx st + 1)%nat);
      [discriminate|].
    rewrite decide_False by lia.
    rewrite (lookup_app_l stream extra (streamIdx st)) by lia.
    rewrite (lookup_app_l stream extra (S (streamIdx st))) by lia. trivial.
  - destruct (decide (length stream <= streamIdx st)%nat); [discriminate|].
    intros Hcont. rewrite decide_False by lia.
    rewrite (lookup_app_l stream extra (streamIdx st)) by lia. exact Hcont.
Qed.

Lemma decodeStep_app (st st' : decState) :
  decodeStep stream size st = Continue st' ->
  decodeStep (stream ++ extra) size st = Continue st'.
Proof.
  unfold decodeStep. cbv zeta. rewrite length_app.
  destruct (decide (length stream < streamIdx st)%nat); [discriminate|].
  rewrite (decide_False (P := (length stream + length extra
                               < streamIdx st)%nat)) by lia.
  destruct (decide (bitsLeft st - 1 = 0)).
  - destruct (decide (length stream <= streamIdx st)%nat).
    + destruct (decide _); discriminate.
    + rewrite (decide_False (P := (length stream + length extra
                                   <= streamIdx st)%nat)) by lia.
      rewrite lookup_app_l by lia.
      apply decodeToken_app.
  - apply decodeToken_app.
Qed.

(** Inside the loop no iteration ends by [break]. *)
Lemma decodeStep_no_break (st st' : decState) :
  uint32 (Z.of_nat (length (outBuffer st))) < size ->
  decodeStep stream size st <> Break st'.
Proof.
  intros Hbelow. unfold decodeStep, decodeToken. cbv zeta.
  destruct (decide _); [discriminate|].
  destruct (decide (bitsLeft st - 1 = 0)).
  - destruct (decide _).
    + rewrite decide_True by exact Hbelow. discriminate.
    + cbn [outBuffer streamIdx].
      destruct (bool_decide _).
      * destruct (decide _); discriminate.
      * destruct (decide _); [discriminate|].
        rewrite decide_False by lia. discriminate.
  - cbn [outBuffer streamIdx].
    destruct (bool_decide _).
    + destruct (decide _); discriminate.
    + destruct (decide _); [discriminate|].
      rewrite decide_False by lia. discriminate.
Qed.

Lemma decodeLoop_app (fuel : nat) (st : decState) (out : list byte) :
  decodeLoop fuel stream size st = Ok out ->
  decodeLoop fuel (stream ++ extra) size st = Ok out.
Proof.
  revert st. induction fuel as [|fuel IH]; intros st; cbn [decodeLoop];
    destruct (decide (uint32 (Z.of_nat (length (outBuffer st))) < size))
      as [Hbelow|Hdone]; trivial.
  destruct (decodeStep stream size st) as [st'|st'|e] eqn:Hstep;
    [|exfalso; exact (decodeStep_no_break st st' Hbelow Hstep)|discriminate].
  rewrite (decodeStep_app st st' Hstep). apply IH.
Qed.

End decoder_extension.

(** Decoding is not disturbed by bytes that follow the stream. *)
Lemma lzssSimpleDecompress_app (stream extra out : list byte) (size : Z) :
  lzssSimpleDecompress stream size = Ok out ->
  lzssSimpleDecompress (stream ++ extra) size = Ok out.
Proof.
  unfold lzssSimpleDecompress.
  destruct (decide (length stream = O)) as [Hnil|Hne].
  - destruct (decide (size > 0)); [discriminate|]. intros [= <-].
    destruct stream; [|discriminate]. cbn [app].
    destruct (decide (length extra = O)); [reflexivity|].
    replace (Z.to_nat size) with O by lia. cbn [decodeLoop outBuffer length].
    rewrite decide_False by (change (uint32 (Z.of_nat O)) with 0; lia).
    reflexivity.
  - rewrite decide_False by (rewrite length_app; lia).
    rewrite lookup_app_l by lia. apply decodeLoop_app.
Qed.

Lemma copyLoop_prefix (count offset : nat) (size : Z) (out : list byte) :
  exists ext, copyLoop count offset size out = out ++ ext.
Proof.
  revert out. induction count as [|count IH]; intros out; cbn [copyLoop].
  - exists []. now rewrite app_nil_r.
  - destruct (decide _); [exists []; now rewrite app_nil_r|].
    destruct (decide _);
      match goal with |- context [copyLoop count offset size (out ++ [?b])] =>
        destruct (IH (out ++ [b])) as [ext ->]; exists (b :: ext);
        now rewrite <- app_assoc
      end.
Qed.

Section smaller_target.
Variable stream : list byte.
Variables m n : Z.
Hypothesis Hm : 0 <= m <= n.
Hypothesis Hn : n < 4294967296.

Lemma copyLoop_smaller (count offset : nat) (out : list byte) :
  Z.of_nat (length out) <= m ->
  copyLoop count offset m out =
  take (Z.to_nat m) (copyLoop count offset n out).
Proof.
  revert out. induction count as [|count IH]; intros out Hout;
    cbn [copyLoop].
  - symmetry. apply take_ge. lia.
  - unfold uint32. rewrite Z.mod_small by lia.
    destruct (decide (Z.of_nat (length out) >= m)) as [Hfull|Hroom].
    + match goal with |- _ = take _ ?r =>
        assert (Hpre : exists ext, r = out ++ ext)
      end.
      { destruct (decide (Z.of_nat (length out) >= n));
          [exists []; now rewrite app_nil_r|].
        destruct (decide _);
          match goal with |- context [copyLoop count offset n (out ++ [?b])] =>
            destruct (copyLoop_prefix count offset n (out ++ [b]))
              as [ext ->]; exists (b :: ext); now rewrite <- app_assoc
          end. }
      destruct Hpre as [ext ->].
      rewrite take_app_le by lia. symmetry. apply take_ge. lia.
    + rewrite (decide_False (P := Z.of_nat (length out) >= n)) by lia.
      destruct (decide _); apply IH; rewrite length_app; simpl; lia.
Qed.

Lemma decodeToken_smaller (b : bool) (st st' : decState) :
  Z.of_nat (length (outBuffer st)) < m ->
  decodeToken stream n b st = Continue st' ->
  decodeToken stream m b st = Continue (cutOutput m st').
Proof.
  intros Hbelow. unfold decodeToken, cutOutput. cbv zeta. destruct b.
  - destruct (decide _); [discriminate|]. intros [= <-].
    cbn [outBuffer streamIdx controlByte bitsLeft].
    rewrite copyLoop_smaller by lia. reflexivity.
  - destruct (decide _); [discriminate|].
    unfold uint32. rewrite !Z.mod_small by lia.
    destruct (decide (Z.of_nat (length (outBuffer st)) >= n));
      [discriminate|].
    intros [= <-]. rewrite decide_False by lia.
    cbn [outBuffer streamIdx controlByte bitsLeft].
    rewrite take_ge by (rewrite length_app; simpl; lia). reflexivity.
Qed.

Lemma decodeStep_smaller (st st' : decState) :
  Z.of_nat (length (outBuffer st)) < m ->
  decodeStep stream n st = Continue st' ->
  decodeStep stream m st = Continue (cutOutput m st').
Proof.
  intros Hbelow. unfold decodeStep. cbv zeta.
  destruct (decide _); [discriminate|].
  destruct (decide (bitsLeft st - 1 = 0)).
  - destruct (decide _).
    + destruct (decide _); discriminate.
    + apply decodeToken_smaller. exact Hbelow.
  - apply decodeToken_smaller. exact Hbelow.
Qed.

Lemma decodeStep_prefix (size : Z) (st st' : decState) :
  decodeStep stream size st = Continue st' ->
  exists ext, outBuffer st' = outBuffer st ++ ext.
Proof.
  assert (Htoken : forall b s, outBuffer s = outBuffer st ->
    decodeToken stream size b s = Continue st' ->
    exists ext, outBuffer st' = outBuffer st ++ ext).
  { intros b s Hs. unfold decodeToken. cbv zeta. rewrite Hs. destruct b.
    - destruct (decide _); [discriminate|]. intros [= <-].
      cbn [outBuffer]. apply copyLoop_prefix.
    - destruct (decide _); [discriminate|].
      destruct (decide _); [discriminate|]. intros [= <-].
      cbn [outBuffer]. eexists. reflexivity. }
  unfold decodeStep. cbv zeta.
  destruct (decide _); [discriminate|].
  destruct (decide (bitsLeft st - 1 = 0)).
  - destruct (decide _).
    + destruct (decide _); discriminate.
    + apply Htoken. reflexivity.
  - apply Htoken. reflexivity.
Qed.

(** The output only grows. *)
Lemma decodeLoop_prefix (size : Z) (fuel : nat) (st : decState)
    (out : list byte) :
  decodeLoop fuel stream size st = Ok out ->
  exists rest, out = outBuffer st ++ rest.
Proof.
  revert st. induction fuel as [|fuel IH]; intros st; cbn [decodeLoop];
    (destruct (decide (uint32 (Z.of_nat (length (outBuffer st))) < size))
       as [Hbelow|Hdone];
     [|intros [= <-]; exists []; now rewrite app_nil_r]); [discriminate|].
  destruct (decodeStep stream size st) as [st'|st'|e] eqn:Hstep;
    [|exfalso; exact (decodeStep_no_break _ _ _ _ Hbelow Hstep)|discriminate].
  intros Hrun. destruct (IH st' Hrun) as [rest ->].
  destruct (decodeStep_prefix size st st' Hstep) as [ext ->].
  exists (ext ++ rest). now rewrite app_assoc.
Qed.

Lemma decodeLoop_smaller (fn : nat) :
  forall (fm : nat) (st : decState) (out : list byte),
  Z.of_nat (length (outBuffer st)) <= n ->
  m <= Z.of_nat (length (outBuffer (cutOutput m st))) + Z.of_nat fm ->
  decodeLoop fn stream n st = Ok out ->
  decodeLoop fm stream m (cutOutput m st) = Ok (take (Z.to_nat m) out).
Proof.
  induction fn as [|fn IH]; intros fm st out Hle Hfuel Hrun.
  - cbn [decodeLoop] in Hrun.
    destruct (decide _) as [|Hdone]; [discriminate|].
    injection Hrun as <-.
    revert Hdone. unfold uint32. rewrite Z.mod_small by lia. intros Hdone.
    assert (Hcut : ~ uint32 (Z.of_nat (length (outBuffer (cutOutput m st)))) < m).
    { unfold cutOutput, uint32. cbn [outBuffer]. rewrite length_take.
      rewrite Z.mod_small by lia. lia. }
    destruct fm; cbn [decodeLoop]; rewrite decide_False by exact Hcut;
      reflexivity.
  - destruct (decide (Z.of_nat (length (outBuffer st)) < m)) as [Hbelow|Hover].
    + (* both runs take the same step *)
      assert (Hsame : cutOutput m st = st).
      { unfold cutOutput. rewrite take_ge by lia. destruct st; reflexivity. }
      rewrite Hsame in *.
      cbn [decodeLoop] in Hrun.
      rewrite decide_True in Hrun
        by (unfold uint32; rewrite Z.mod_small by lia; lia).
      destruct (decodeStep stream n st) as [st'|st'|e] eqn:Hstep;
        try discriminate.
      * pose proof (decodeStep_progress stream n ltac:(lia) st ltac:(lia))
          as Hprog.
        rewrite Hstep in Hprog. destruct Hprog as (Hgrow & Hle').
        destruct fm as [|fm]; [lia|]. cbn [decodeLoop].
        rewrite decide_True
          by (unfold uint32; rewrite Z.mod_small by lia; lia).
        rewrite (decodeStep_smaller st st' Hbelow Hstep).
        apply IH; [exact Hle'| |exact Hrun].
        unfold cutOutput. cbn [outBuffer]. rewrite length_take. lia.
      * exfalso. refine (decodeStep_no_break _ _ _ _ _ Hstep).
        unfold uint32. rewrite Z.mod_small by lia. lia.
    + (* the smaller target is reached *)
      destruct (decodeLoop_prefix n (S fn) st out Hrun) as [rest ->].
      rewrite take_app_le by lia.
      assert (Hcut : ~ uint32 (Z.of_nat (length (outBuffer (cutOutput m st)))) < m).
      { unfold cutOutput, uint32. cbn [outBuffer]. rewrite length_take.
        rewrite Z.mod_small by lia. lia. }
      destruct fm; cbn [decodeLoop]; rewrite decide_False by exact Hcut;
        reflexivity.
Qed.

End smaller_target.

(** A smaller target gives the beginning of the output. *)
Lemma lzssSimpleDecompress_smaller (stream out : list byte) (m n : Z) :
  0 <= m <= n -> n < 4294967296 ->
  lzssSimpleDecompress stream n = Ok out ->
  lzssSimpleDecompress stream m = Ok (take (Z.to_nat m) out).
Proof.
  intros Hm Hn. unfold lzssSimpleDecompress.
  destruct (decide (length stream = O)).
  - destruct (decide (n > 0)); [discriminate|]. intros [= <-].
    rewrite decide_False by lia. now rewrite take_nil.
  - intros Hrun.
    pose proof (decodeLoop_smaller stream m n Hm Hn (Z.to_nat n)
                  (Z.to_nat m)
                  {| outBuffer := []; streamIdx := 1%nat;
                     controlByte := default Byte.x00 (stream !! O);
                     bitsLeft := 8 |} out) as H.
    unfold cutOutput in H.
    cbn [outBuffer streamIdx controlByte bitsLeft] in H.
    rewrite take_nil in H.
    apply H; [simpl; lia|simpl; lia|exact Hrun].
Qed.

(** ** Containers *)

Lemma coreCompressV1_decodes (X s : list byte) :
  Z.of_nat (length X) < 4294967296 -> coreCompressV1 X = Ok s ->
  lzssSimpleDecompress s (Z.of_nat (length X)) = Ok X.
Proof.
  intros Hfits Henc. apply coreCompressV1_wire in Henc. subst s.
  apply lzssSimpleDecompress_wire; [exact Hfits|].
  unfold encoderTokens. apply tokensFrom_parses; lia.
Qed.

(** The stream is empty for the empty input only. *)
Lemma coreCompressV1_nil (X s : list byte) :
  coreCompressV1 X = Ok s -> (s = [] <-> X = []).
Proof.
  intros Henc. split.
  - intros ->. apply coreCompressV1_wire in Henc.
    destruct X as [|b X]; [reflexivity|exfalso].
    unfold encoderTokens in Henc. cbn [length tokensFrom] in Henc.
    rewrite decide_True in Henc by (simpl; lia). discriminate.
  - intros ->. cbv in Henc. congruence.
Qed.

Lemma estimatedOutputSize_le (n : nat) :
  (estimatedOutputSize n <= n + 2176)%nat.
Proof.
  unfold estimatedOutputSize, outputBufferSlack. repeat case_decide; lia.
Qed.

(** The container: header, stream, and fewer than 2048 zero bytes. *)
Lemma compressAndPadToPCMP_layout (X out : list byte) :
  compressAndPadToPCMP X = Ok out ->
  exists (s : list byte) (k : nat),
    coreCompressV1 X = Ok s /\
    out = headerBytes (uint32 (Z.of_nat (length X)))
            (uint32 (Z.of_nat (length s))) ++ s ++ replicate k Byte.x00 /\
    (k < fileAlignment)%nat /\
    (length out `mod` fileAlignment = 0)%nat.
Proof.
  unfold compressAndPadToPCMP.
  destruct (coreCompressV1 X) as [s|e|]; try discriminate.
  rewrite writePCMPHeader_bytes.
  remember (headerBytes (uint32 (Z.of_nat (length X)))
              (uint32 (Z.of_nat (length s)))) as h eqn:Hh.
  assert (Hpos : fileAlignment <> O) by discriminate.
  generalize dependent fileAlignment. intros a Hpos.
  pose proof (Nat.mod_upper_bound (length (h ++ s)) a Hpos) as Hlt.
  pose proof (Nat.div_mod_eq (length (h ++ s)) a) as Hdiv.
  destruct (decide (length (h ++ s) `mod` a ≠ 0)%nat) as [Hrem|Hzero].
  - rewrite decide_True by lia. intros [= <-].
    exists s, (a - length (h ++ s) `mod` a)%nat.
    split; [reflexivity|].
    split; [rewrite <- Hh; symmetry; apply app_assoc|].
    split; [lia|].
    rewrite length_app, length_replicate.
    replace (length (h ++ s) + (a - length (h ++ s) `mod` a))%nat
      with ((length (h ++ s) `div` a + 1) * a)%nat by lia.
    apply Nat.Div0.mod_mul.
  - rewrite decide_False by lia. intros [= <-].
    exists s, O. split; [reflexivity|].
    split; [rewrite <- Hh; cbn [replicate]; now rewrite app_nil_r|].
    split; lia.
Qed.

Lemma slice_after_header (h rest : list byte) (n : nat) :
  length h = 32%nat -> slice 32 (32 + n) (h ++ rest) = take n rest.
Proof.
  intros Hh. unfold slice. rewrite <- Hh, drop_app_length.
  f_equal. lia.
Qed.

(** A file made of a header, the stream of [X] and any further bytes
    decodes to [X], whenever the declared stream size is zero or not
    below the true one. *)
Lemma decompressPCMPFile_container (X s pad : list byte) (c : Z) :
  coreCompressV1 X = Ok s ->
  Z.of_nat (length X) < 4294967296 ->
  Z.of_nat (length s + length pad) < 4294967296 ->
  0 <= c < 4294967296 -> c = 0 \/ Z.of_nat (length s) <= c ->
  decompressPCMPFile (headerBytes (Z.of_nat (length X)) c ++ s ++ pad)
  = FileOk X.
Proof.
  intros Henc HX Hrest Hc Hdecl. unfold decompressPCMPFile.
  pose proof (length_app s pad) as Hsp.
  rewrite readPCMPHeader_write by lia. cbv zeta.
  rewrite (length_app (headerBytes _ _)), headerBytes_length.
  unfold uint32. rewrite Z.mod_small by lia.
  set (comp := if decide (c = 0 \/ c > Z.of_nat (length (s ++ pad)))
               then Z.of_nat (length (s ++ pad)) else c).
  assert (Hcomp : Z.of_nat (length s) <= comp <= Z.of_nat (length (s ++ pad))).
  { unfold comp. destruct (decide _); lia. }
  assert (Heq : (if decide (c = 0 \/ c > Z.of_nat (length (s ++ pad)))
                 then Ok (Z.of_nat (length X), Z.of_nat (length (s ++ pad)))
                 else Ok (Z.of_nat (length X), c))
                = Ok (Z.of_nat (length X), comp))
    by (unfold comp; destruct (decide _); reflexivity).
  rewrite Heq. clear Heq. clearbody comp.
  unfold pcmpDataOffset. change (Z.of_nat 32) with 32.
  rewrite decide_False by lia.
  pose proof (coreCompressV1_nil X s Henc) as Hnil.
  pose proof (coreCompressV1_decodes X s HX Henc) as Hdec.
  destruct (decide (comp = 0 /\ Z.of_nat (length X) > 0)) as [[H0 HX0]|_].
  { exfalso. assert (s = []) by (destruct s; [reflexivity|simpl in *; lia]).
    assert (X = []) by tauto. subst X. simpl in HX0. lia. }
  destruct (decide (comp = 0 /\ Z.of_nat (length X) = 0)) as [[H0 HX0]|_].
  { destruct X; [reflexivity|simpl in HX0; lia]. }
  rewrite slice_after_header by apply headerBytes_length.
  rewrite take_app_ge by lia.
  rewrite (lzssSimpleDecompress_app s _ X _ Hdec). reflexivity.
Qed.

(** ** Size of the stream *)

Section stream_size.
Local Open Scope nat_scope.
Variable X : list byte.

(** A literal costs nine bits for one byte, a copy seventeen bits for 3
    to 18 bytes. *)
Lemma wireBody_bounds (ts : list token) :
  forall p c, parses X p ts -> c < 8 ->
  p <= length X /\
  8 * length (wireBody c ts) <= 9 * (length X - p) + c /\
  17 * (length X - p) + 18 * c <= 18 * (8 * length (wireBody c ts) + 7).
Proof.
  induction ts as [|t ts IH]; intros p c Hparse Hc.
  - cbn [parses] in Hparse. subst p. cbn [wireBody length]. lia.
  - cbn [wireBody].
    assert (Hnext : exists q, parses X q ts /\ p < q /\
              (length (tokenBytes t) = 1 /\ q = S p \/
               length (tokenBytes t) = 2 /\ p + 3 <= q <= p + 18)).
    { destruct t as [b|o l]; cbn [parses] in Hparse.
      - exists (S p). destruct Hparse as (_ & H).
        split; [exact H|]. split; [lia|]. left. split; reflexivity.
      - exists (p + l). destruct Hparse as (_ & Hl & _ & _ & _ & H).
        split; [exact H|]. split; [lia|]. right. split; [reflexivity|lia]. }
    destruct Hnext as (q & Hq & Hpq & Hcost).
    destruct (decide (S c = 8)) as [Hfull|Hpart].
    + destruct (IH q 0 Hq ltac:(lia)) as (Hle & Hup & Hlow).
      cbn [length]. rewrite length_app. lia.
    + destruct (IH q (S c) Hq ltac:(lia)) as (Hle & Hup & Hlow).
      rewrite length_app. lia.
Qed.

Lemma coreCompressV1_size (s : list byte) :
  coreCompressV1 X = Ok s ->
  8 * length s <= 9 * length X + 8 /\ 17 * length X <= 144 * length s.
Proof.
  intros Henc. pose proof (coreCompressV1_nil X s Henc) as Hnil.
  apply coreCompressV1_wire in Henc. subst s.
  pose proof (tokensFrom_parses X (length X) 0 ltac:(lia) ltac:(lia))
    as Hparse.
  fold (encoderTokens X) in Hparse.
  destruct (encoderTokens X) as [|t ts] eqn:E.
  - cbn [parses] in Hparse. cbn [wire length]. lia.
  - cbn [wire length].
    destruct (wireBody_bounds (t :: ts) 0 0 Hparse ltac:(lia))
      as (_ & Hup & Hlow).
    lia.
Qed.

End stream_size.

Lemma Ok_inj {A : Type} (a b : A) : Ok a = Ok b -> a = b.
Proof. intros H. now injection H. Qed.

Lemma estimatedOutputSize_max (n : nat) :
  (estimatedOutputSize n <= (n + 2048) `max` 2176)%nat.
Proof.
  unfold estimatedOutputSize, outputBufferSlack. repeat case_decide; lia.
Qed.

(** No three bytes recur at a distance the window covers: no match. *)
Lemma distinct_in_window_unmatched (inputData : list byte) :
  (forall q p : nat, (q + 3 <= p <= q + 4096)%nat ->
     (p + 3 <= length inputData)%nat ->
     slice q (q + 3) inputData <> slice p (p + 3) inputData) ->
  forall p, searchAt inputData p = None.
Proof.
  intros Hdistinct p.
  destruct (searchAt inputData p) as [[o l]|] eqn:E; [exfalso|reflexivity].
  apply searchAt_Some in E as (Hl & Hfit & Hlo & Hop & Ho & Heq).
  apply (Hdistinct (p - o)%nat p); [lia|lia|].
  rewrite <- (slice_take (p - o) l 3), <- (slice_take p l 3) by lia.
  now rewrite Heq.
Qed.

(** ** Exhausted and truncated streams *)

(** An iteration that starts without a stream byte left fails. *)
Lemma decodeStep_exhausted (stream : list byte) (size : Z) (st : decState) :
  uint32 (Z.of_nat (length (outBuffer st))) < size ->
  (length stream <= streamIdx st)%nat ->
  exists e, decodeStep stream size st = Fail e /\
            (e = errStreamPrematureEnd \/ e = errPrematureEndCopy \/
             e = errPrematureEndLiteral).
Proof.
  intros Hbelow Hend. unfold decodeStep.
  destruct (decide (length stream < streamIdx st)%nat);
    [eexists; split; [reflexivity|left; reflexivity]|].
  destruct (decide (bitsLeft st - 1 = 0)).
  - rewrite decide_True by exact Hend. rewrite decide_True by exact Hbelow.
    eexists; split; [reflexivity|left; reflexivity].
  - unfold decodeToken. cbn [streamIdx outBuffer].
    destruct (bool_decide _).
    + rewrite decide_True by lia.
      eexists; split; [reflexivity|right; left; reflexivity].
    + rewrite decide_True by exact Hend.
      eexists; split; [reflexivity|right; right; reflexivity].
Qed.

Lemma decodeLoop_exhausted (stream : list byte) (size : Z) (fuel : nat)
    (st : decState) :
  uint32 (Z.of_nat (length (outBuffer st))) < size ->
  (length stream <= streamIdx st)%nat ->
  exists e, decodeLoop (S fuel) stream size st = Err e /\
            (e = errStreamPrematureEnd \/ e = errPrematureEndCopy \/
             e = errPrematureEndLiteral).
Proof.
  intros Hbelow Hend. cbn [decodeLoop]. rewrite decide_True by exact Hbelow.
  destruct (decodeStep_exhausted stream size st Hbelow Hend) as (e & -> & He).
  exists e. split; [reflexivity|exact He].
Qed.

Lemma tokenBytes_length (t : token) :
  length (tokenBytes t) = if isCopy t then 2%nat else 1%nat.
Proof. destruct t; reflexivity. Qed.

(** A token whose bytes are cut off is reported. *)
Lemma decodeToken_cut (t : token) (pre : list byte) (size : Z) (j : nat)
    (st : decState) :
  streamIdx st = length pre -> (j < length (tokenBytes t))%nat ->
  exists e,
    decodeToken (pre ++ take j (tokenBytes t)) size (isCopy t) st = Fail e /\
    (e = errStreamPrematureEnd \/ e = errPrematureEndCopy \/
     e = errPrematureEndLiteral).
Proof.
  intros Hidx Hj. unfold decodeToken. rewrite Hidx.
  rewrite length_app, length_take. rewrite tokenBytes_length in *.
  destruct (isCopy t).
  - rewrite decide_True by lia.
    eexists; split; [reflexivity|right; left; reflexivity].
  - rewrite decide_True by lia.
    eexists; split; [reflexivity|right; right; reflexivity].
Qed.

Section decoder_cut.
Variable X : list byte.
Variable size : Z.
Hypothesis Hsize : Z.of_nat (length X) <= size.
Hypothesis Hfits : size < 4294967296.

(** The decoding loop on the wire format of tokens that describe [X], cut
    after [j] bytes or asked for more than [X]: it fails. *)
Lemma decodeLoop_cut (ts : list token) :
  forall (fuel c p j : nat) (pre : list byte) (st : decState),
  parses X p ts -> (p <= length X)%nat -> size <= Z.of_nat (p + fuel) ->
  (c < 8)%nat -> ctrlOK c (controlByte st) ts ->
  outBuffer st = take p X -> streamIdx st = length pre ->
  bitsLeft st = 8 - Z.of_nat c ->
  (j < length (wireBody c ts))%nat \/ Z.of_nat (length X) < size ->
  exists e,
    decodeLoop fuel (pre ++ take j (wireBody c ts)) size st = Err e /\
    (e = errStreamPrematureEnd \/ e = errPrematureEndCopy \/
     e = errPrematureEndLiteral).
Proof.
  induction ts as [|t ts IH];
    intros fuel c p j pre st Hparse Hp Hfuel Hc Hctrl Hout Hidx Hbits Hcut.
  - cbn [parses] in Hparse. subst p. cbn [wireBody length] in *.
    destruct Hcut as [Hj|Hmore]; [lia|].
    destruct fuel as [|fuel]; [lia|].
    apply decodeLoop_exhausted.
    + rewrite Hout, take_ge by lia. unfold uint32.
      rewrite Z.mod_small; lia.
    + rewrite take_nil, app_nil_r, Hidx. lia.
  - assert (Hlt : (p < length X)%nat).
    { destruct t; cbn [parses] in Hparse.
      - destruct Hparse as (Hb & _). exact (lookup_lt_Some _ _ _ Hb).
      - lia. }
    assert (Hbelow : uint32 (Z.of_nat (length (outBuffer st))) < size)
      by (rewrite Hout; apply (below_target X size Hsize Hfits); exact Hlt).
    destruct fuel as [|fuel]; [lia|]. cbn [decodeLoop].
    rewrite decide_True by exact Hbelow.
    assert (Hnext : parses X (p + tokenSpan t) ts /\
                    (p + tokenSpan t <= length X)%nat /\
                    (1 <= tokenSpan t)%nat).
    { destruct t; cbn [parses tokenSpan] in *.
      - replace (p + 1)%nat with (S p) by lia.
        destruct Hparse as (_ & H). split; [exact H|lia].
      - destruct Hparse as (_ & ? & _ & ? & _ & H). split; [exact H|lia]. }
    destruct Hnext as (Hparse' & Hp' & Hspan).
    assert (Hbit : Z.testbit (b2z (controlByte st)) 7 = isCopy t)
      by (apply (Hctrl O t); [lia|reflexivity]).
    (* the token part, once the control byte is in place *)
    assert (Htoken : forall (c' j' : nat) (pre' : list byte) (st1 : decState),
      (c' < 8)%nat -> ctrlOK c' (controlByte st1) ts ->
      outBuffer st1 = take p X -> streamIdx st1 = length pre' ->
      bitsLeft st1 = 8 - Z.of_nat c' ->
      (j' < length (tokenBytes t ++ wireBody c' ts))%nat \/
        Z.of_nat (length X) < size ->
      exists e,
        match decodeToken (pre' ++ take j' (tokenBytes t ++ wireBody c' ts))
                size (isCopy t) st1 with
        | Continue st' =>
            decodeLoop fuel
              (pre' ++ take j' (tokenBytes t ++ wireBody c' ts)) size st'
        | Break st' => Ok (outBuffer st')
        | Fail e => Err e
        end = Err e /\
        (e = errStreamPrematureEnd \/ e = errPrematureEndCopy \/
         e = errPrematureEndLiteral)).
    { intros c' j' pre' st1 Hc' Hctrl' Hout1 Hidx1 Hbits1 Hcut'.
      destruct (decide (j' < length (tokenBytes t))%nat) as [Hin|Hpast].
      - rewrite take_app_le by lia.
        destruct (decodeToken_cut t pre' size j' st1 Hidx1 Hin)
          as (e & -> & He).
        exists e. split; [reflexivity|exact He].
      - rewrite take_app_ge by lia.
        rewrite (decodeToken_wire X size Hsize Hfits t ts pre' _ p st1
                   Hparse Hout1 Hidx1).
        rewrite (app_assoc pre').
        apply (IH fuel c' (p + tokenSpan t)%nat);
          cbn [outBuffer streamIdx controlByte bitsLeft];
          try assumption; try reflexivity; try lia.
        rewrite length_app in Hcut'. lia. }
    unfold decodeStep.
    rewrite decide_False
      by (rewrite Hidx, length_app; lia).
    rewrite msb_test, Hbit, Hbits. cbn [wireBody] in *.
    destruct (decide (S c = 8%nat)) as [Hfull|Hpart].
    + rewrite decide_True by lia.
      destruct j as [|j].
      * rewrite take_0, app_nil_r.
        rewrite decide_True by (rewrite Hidx; lia).
        rewrite decide_True by exact Hbelow.
        eexists; split; [reflexivity|left; reflexivity].
      * cbn [take].
        rewrite decide_False by (rewrite Hidx, length_app; simpl; lia).
        rewrite Hidx, (list_lookup_middle pre _ _ (length pre) eq_refl).
        cbn [default from_option id].
        change (pre ++ z2b (flagOf 8 ts)
                  :: take j (tokenBytes t ++ wireBody 0 ts))
          with (pre ++ [z2b (flagOf 8 ts)]
                  ++ take j (tokenBytes t ++ wireBody 0 ts)).
        rewrite (app_assoc pre).
        apply (Htoken O j);
          cbn [outBuffer streamIdx controlByte bitsLeft];
          try assumption; try reflexivity; try lia.
        -- intros i t' Hi Ht'. rewrite b2z_z2b, testbit_mod256.
           replace (7 - Z.of_nat i <? 8) with true by lia.
           apply (flagOf_testbit 8 ts i t'); [lia|lia|exact Ht'].
        -- rewrite length_app. simpl. lia.
        -- cbn [length] in Hcut. lia.
    + rewrite decide_False by lia.
      apply (Htoken (S c) j);
        cbn [outBuffer streamIdx controlByte bitsLeft];
        try assumption; try reflexivity; try lia.
      intros i t' Hi Ht'.
      replace (7 - Z.of_nat i) with (6 - Z.of_nat i + 1) by lia.
      rewrite shifted_bit by lia.
      replace (6 - Z.of_nat i) with (7 - Z.of_nat (S i)) by lia.
      apply (Hctrl (S i) t'); [lia|exact Ht'].
Qed.

End decoder_cut.

(** The wire format of tokens that describe [X], cut anywhere or asked
    for more bytes than [X] has, is refused. *)
Lemma lzssSimpleDecompress_cut (X : list byte) (ts : list token) (k : nat)
    (size : Z) :
  size < 4294967296 -> parses X O ts -> Z.of_nat (length X) <= size ->
  (k < length (wire ts))%nat \/ Z.of_nat (length X) < size ->
  exists e,
    lzssSimpleDecompress (take k (wire ts)) size = Err e /\
    (e = errStreamEmpty \/ e = errStreamPrematureEnd \/
     e = errPrematureEndCopy \/ e = errPrematureEndLiteral).
Proof.
  intros Hfits Hparse Hsize Hcut. unfold lzssSimpleDecompress.
  destruct ts as [|t ts].
  - cbn [parses] in Hparse. cbn [wire length] in *. rewrite take_nil.
    cbn [length]. rewrite decide_True by reflexivity.
    rewrite decide_True by lia.
    exists errStreamEmpty. split; [reflexivity|left; reflexivity].
  - assert (Hlt : (0 < length X)%nat).
    { destruct t; cbn [parses] in Hparse.
      - destruct Hparse as (Hb & _). exact (lookup_lt_Some _ _ _ Hb).
      - lia. }
    cbn [wire] in *. destruct k as [|j].
    + rewrite take_0. cbn [length]. rewrite decide_True by reflexivity.
      rewrite decide_True by lia.
      exists errStreamEmpty. split; [reflexivity|left; reflexivity].
    + cbn [take length]. rewrite decide_False by discriminate.
      cbn [lookup list_lookup default from_option id].
      destruct (decodeLoop_cut X size Hsize Hfits (t :: ts)
                  (Z.to_nat size) O O j [z2b (flagOf 8 (t :: ts))]
                  {| outBuffer := [];
                     streamIdx := 1%nat;
                     controlByte := z2b (flagOf 8 (t :: ts));
                     bitsLeft := 8 |}) as (e & He & Hprem);
        cbn [outBuffer streamIdx controlByte bitsLeft];
        try assumption; try reflexivity; try lia.
      * intros i t' Hi Ht'. rewrite b2z_z2b, testbit_mod256.
        replace (7 - Z.of_nat i <? 8) with true by lia.
        apply (flagOf_testbit 8 (t :: ts) i t'); [lia|lia|exact Ht'].
      * cbn [length] in Hcut. lia.
      * exists e. split; [exact He|right; exact Hprem].
Qed.

(** When an iteration fails: the control byte is missing, or the bytes of
    the token it announces are. *)
Lemma decodeStep_fails (stream : list byte) (size : Z) (st : decState) :
  uint32 (Z.of_nat (length (outBuffer st))) < size ->
  let tokenIdx :=
    if decide (bitsLeft st = 1) then S (streamIdx st) else streamIdx st in
  (bitsLeft st = 1 /\ (length stream <= streamIdx st)%nat) \/
  (Z.land (b2z (controlByte st)) 128 <> 0 /\
   (length stream <= tokenIdx + 1)%nat) \/
  (Z.land (b2z (controlByte st)) 128 = 0 /\
   (length stream <= tokenIdx)%nat) ->
  exists e, decodeStep stream size st = Fail e /\
            (e = errStreamPrematureEnd \/ e = errPrematureEndCopy \/
             e = errPrematureEndLiteral).
Proof.
  intros Hbelow tokenIdx Hcase. unfold decodeStep.
  destruct (decide (length stream < streamIdx st)%nat);
    [eexists; split; [reflexivity|left; reflexivity]|].
  unfold tokenIdx in Hcase.
  destruct (decide (bitsLeft st - 1 = 0)) as [Hone|Hmore].
  - rewrite decide_True in Hcase by lia.
    destruct (decide (length stream <= streamIdx st)%nat) as [Hend|Hctl].
    + rewrite decide_True by exact Hbelow.
      eexists; split; [reflexivity|left; reflexivity].
    + unfold decodeToken. cbn [streamIdx outBuffer].
      destruct Hcase as [(_ & H)|[(Hbit & H)|(Hbit & H)]]; [lia| |].
      * rewrite bool_decide_eq_true_2 by exact Hbit.
        rewrite decide_True by lia.
        eexists; split; [reflexivity|right; left; reflexivity].
      * rewrite bool_decide_eq_false_2 by (intros Hn; apply Hn; exact Hbit).
        rewrite decide_True by lia.
        eexists; split; [reflexivity|right; right; reflexivity].
  - rewrite decide_False in Hcase by lia.
    unfold decodeToken. cbn [streamIdx outBuffer].
    destruct Hcase as [(H1 & _)|[(Hbit & H)|(Hbit & H)]]; [lia| |].
    + rewrite bool_decide_eq_true_2 by exact Hbit.
      rewrite decide_True by lia.
      eexists; split; [reflexivity|right; left; reflexivity].
    + rewrite bool_decide_eq_false_2 by (intros Hn; apply Hn; exact Hbit).
      rewrite decide_True by lia.
      eexists; split; [reflexivity|right; right; reflexivity].
Qed.

Section decoder_consumes.
Local Open Scope nat_scope.
Variable stream : list byte.
Variable size : Z.

Lemma copyLoop_length (count offset : nat) (out : list byte) :
  length (copyLoop count offset size out) <= length out + count.
Proof.
  revert out. induction count as [|count IH]; intros out; cbn [copyLoop];
    [lia|].
  destruct (decide _); [lia|].
  destruct (decide _);
    match goal with |- context [copyLoop count offset size ?o] =>
      pose proof (IH o) as H; rewrite length_app in H; simpl in H; lia
    end.
Qed.

(** An iteration that goes on has read its bytes inside the stream, and
    has produced at most nine bytes for each of them. *)
Lemma decodeStep_consumes (st st' : decState) :
  decodeStep stream size st = Continue st' ->
  streamIdx st <= streamIdx st' <= length stream /\
  length (outBuffer st') <=
    length (outBuffer st) + 9 * (streamIdx st' - streamIdx st).
Proof.
  assert (Htoken : forall (b : bool) (s : decState),
    decodeToken stream size b s = Continue st' ->
    streamIdx s <= streamIdx st' <= length stream /\
    length (outBuffer st') <=
      length (outBuffer s) + 9 * (streamIdx st' - streamIdx s)).
  { intros b s. unfold decodeToken. destruct b.
    - destruct (decide _); [discriminate|]. intros [= <-].
      cbn [outBuffer streamIdx].
      match goal with |- context [copyLoop ?c ?o size ?b] =>
        pose proof (copyLoop_length c o b);
        pose proof (unpackCount_range
                      (default Byte.x00 (stream !! streamIdx s)))
      end.
      lia.
    - destruct (decide _); [discriminate|].
      destruct (decide _); [discriminate|]. intros [= <-].
      cbn [outBuffer streamIdx]. rewrite length_app. simpl. lia. }
  unfold decodeStep.
  destruct (decide _); [discriminate|].
  destruct (decide (bitsLeft st - 1 = 0)%Z).
  - destruct (decide _); [destruct (decide _); discriminate|].
    intros H. apply Htoken in H. cbn [outBuffer streamIdx] in H. lia.
  - intros H. apply Htoken in H. cbn [outBuffer streamIdx] in H. lia.
Qed.

Lemma decodeStep_break (st st' : decState) :
  decodeStep stream size st = Break st' -> outBuffer st' = outBuffer st.
Proof.
  unfold decodeStep, decodeToken.
  repeat (destruct (decide _) || destruct (bool_decide _));
    try discriminate; intros [= <-]; reflexivity.
Qed.

Lemma decodeLoop_consumes (fuel : nat) (st : decState) (out : list byte) :
  streamIdx st <= length stream ->
  decodeLoop fuel stream size st = Ok out ->
  length out <= length (outBuffer st) + 9 * (length stream - streamIdx st).
Proof.
  revert st. induction fuel as [|fuel IH]; intros st Hidx; cbn [decodeLoop];
    (destruct (decide _); [|intros [= <-]; lia]); [discriminate|].
  destruct (decodeStep stream size st) as [st'|st'|e] eqn:E;
    [|intros [= <-]; apply decodeStep_break in E; rewrite E; lia
     |discriminate].
  intros Hrun. apply decodeStep_consumes in E.
  apply IH in Hrun; lia.
Qed.

End decoder_consumes.

(** A stream holds at most nine output bytes for each byte after its
    first control byte. *)
Lemma lzssSimpleDecompress_consumes (stream out : list byte) (size : Z) :
  lzssSimpleDecompress stream size = Ok out ->
  (length out <= 9 * (length stream - 1))%nat.
Proof.
  unfold lzssSimpleDecompress.
  destruct (decide (length stream = O)) as [Hnil|Hne].
  - destruct (decide _); [discriminate|]. intros [= <-]. simpl. lia.
  - intros H. apply decodeLoop_consumes in H;
      cbn [outBuffer streamIdx length] in *; lia.
Qed.

(** * The claims of the specification *)

(** C1, as the code has it.  For every input [X] whose length fits the
    32-bit size argument of the decoder, [coreCompressV1] terminates and
    either returns a stream, which [lzssSimpleDecompress] with [len(X)] as
    the declared uncompressed size turns back into exactly [X], or refuses
    the input with the capacity error, which needs at least 16384 bytes of
    input. *)
Theorem roundtrip (X : list byte) :
  Z.of_nat (length X) < 4294967296 ->
  match coreCompressV1 X with
  | Ok s => lzssSimpleDecompress s (Z.of_nat (length X)) = Ok X
  | Err e => e = errBufferTooSmall /\ 16384 <= Z.of_nat (length X)
  | Stuck => False
  end.
Proof.
  intros Hfits. pose proof (coreCompressV1_result X) as Hres.
  destruct (coreCompressV1 X) as [s|e|] eqn:Henc.
  - apply coreCompressV1_wire in Henc. subst s.
    apply lzssSimpleDecompress_wire; [exact Hfits|].
    unfold encoderTokens. apply tokensFrom_parses; lia.
  - exact Hres.
  - exact Hres.
Qed.

(** The round trip on an input of eighteen bytes, whose stream holds two
    control bytes, eleven literals and two copies. *)
Lemma roundtrip_witness :
  let X := [Byte.x01; Byte.x02; Byte.x03; Byte.x04; Byte.x05; Byte.x06;
            Byte.x07; Byte.x01; Byte.x02; Byte.x03; Byte.x04; Byte.x09;
            Byte.x09; Byte.x09; Byte.x09; Byte.x09; Byte.x09; Byte.x09] in
  let s := [Byte.x01; Byte.x01; Byte.x02; Byte.x03; Byte.x04; Byte.x05;
            Byte.x06; Byte.x07; Byte.x10; Byte.x61; Byte.x00; Byte.x09;
            Byte.x09; Byte.x09; Byte.x20; Byte.x00; Byte.x09] in
  coreCompressV1 X = Ok s /\
  lzssSimpleDecompress s (Z.of_nat (length X)) = Ok X.
Proof.
  cbv zeta.
  assert (H : coreCompressV1
                [Byte.x01; Byte.x02; Byte.x03; Byte.x04; Byte.x05; Byte.x06;
                 Byte.x07; Byte.x01; Byte.x02; Byte.x03; Byte.x04; Byte.x09;
                 Byte.x09; Byte.x09; Byte.x09; Byte.x09; Byte.x09; Byte.x09]
              = Ok [Byte.x01; Byte.x01; Byte.x02; Byte.x03; Byte.x04; Byte.x05;
                    Byte.x06; Byte.x07; Byte.x10; Byte.x61; Byte.x00; Byte.x09;
                    Byte.x09; Byte.x09; Byte.x20; Byte.x00; Byte.x09])
    by (vm_compute; reflexivity).
  split; [exact H|].
  pose proof (roundtrip
                [Byte.x01; Byte.x02; Byte.x03; Byte.x04; Byte.x05; Byte.x06;
                 Byte.x07; Byte.x01; Byte.x02; Byte.x03; Byte.x04; Byte.x09;
                 Byte.x09; Byte.x09; Byte.x09; Byte.x09; Byte.x09; Byte.x09]
                ltac:(simpl; lia)) as R.
  rewrite H in R. exact R.
Defined.

(** C1 as stated fails: for the input [incompressible] of 16386 bytes
    the encoder produces no stream, so there is nothing to decode. *)
Lemma roundtrip_counterexample :
  Z.of_nat (length incompressible) < 4294967296 /\
  ~ exists s, coreCompressV1 incompressible = Ok s /\
              lzssSimpleDecompress s (Z.of_nat (length incompressible))
              = Ok incompressible.
Proof.
  split; [rewrite incompressible_length; lia|].
  intros (s & Hs & _).
  rewrite (unmatched_input_overflows incompressible incompressible_unmatched)
    in Hs; [discriminate|].
  rewrite incompressible_length. lia.
Qed.

(** C2. Match-finder policy.  For every input, position, window bound [w]
    and length bound [m], [findMatch] returns the longest length [l]
    between 3 and [min m (len - pos)] whose pattern occurs entirely inside
    the window of up to [w] bytes before the position, with the smallest
    offset among the occurrences of that length; it returns nothing
    exactly when no length of that range has an occurrence.  An iteration
    of the encoder loop at [pos] calls it with the window [min pos 4096]
    and the length bound [min 18 (len - pos)]; when nothing is found it
    advances by one byte and appends that byte to the stream, leaving the
    control byte as it is, and when a match is found it advances by the
    length of the match, appends the two bytes of the packed pair and
    sets the bit of the token in the control byte; when the group of
    eight is complete it stores the control byte and reserves the next
    one before the bytes of the token.  A stream the encoder returns is
    the wire format of the tokens so chosen. *)
Theorem findMatch_policy (inputData : list byte) (pos w m : nat) :
  let ws := (pos - w)%nat in
  let maxLen := (m `min` (length inputData - pos))%nat in
  match findMatch inputData pos w m with
  | Some (off, l) =>
      (3 <= l <= maxLen)%nat /\
      matchAtOffset inputData pos ws l off /\
      (forall o, matchAtOffset inputData pos ws l o -> (off <= o)%nat) /\
      (forall l' o, (l < l' <= maxLen)%nat ->
                    ~ matchAtOffset inputData pos ws l' o)
  | None =>
      forall l o, (3 <= l <= maxLen)%nat ->
                  ~ matchAtOffset inputData pos ws l o
  end /\
  let t :=
    match findMatch inputData pos (pos `min` 4096)%nat
            (18 `min` (length inputData - pos))%nat with
    | Some (off, l) => Copy off l
    | None => Literal (default Byte.x00 (inputData !! pos))
    end in
  tokenAt inputData pos = t /\
  (forall st st1 : encState,
     encInv st -> inputPos st = pos ->
     compressStep inputData st = Ok st1 ->
     let cf := flagWith (currentFlag st) (bitCount st) t in
     inputPos st1 = (pos + tokenSpan t)%nat /\
     if decide (S (bitCount st) = 8%nat) then
       bitCount st1 = O /\ flagPos st1 = outputPos st /\
       currentFlag st1 = Byte.x00 /\
       take (outputPos st1) (outputBuffer st1) =
         <[flagPos st := cf]> (take (outputPos st) (outputBuffer st))
           ++ Byte.x00 :: tokenBytes t
     else
       bitCount st1 = S (bitCount st) /\ flagPos st1 = flagPos st /\
       currentFlag st1 = cf /\
       take (outputPos st1) (outputBuffer st1) =
         take (outputPos st) (outputBuffer st) ++ tokenBytes t) /\
  (forall s : list byte,
     coreCompressV1 inputData = Ok s ->
     s = wire (encoderTokens inputData) /\
     forall t' : token, t' ∈ encoderTokens inputData ->
       exists p : nat, (p < length inputData)%nat /\
                       t' = tokenAt inputData p).
Proof.
  split; [apply findMatch_spec|].
  assert (Ht : tokenAt inputData pos =
    match findMatch inputData pos (pos `min` 4096)%nat
            (18 `min` (length inputData - pos))%nat with
    | Some (off, l) => Copy off l
    | None => Literal (default Byte.x00 (inputData !! pos))
    end).
  { unfold tokenAt, searchAt.
    replace (if decide (maxWindowSize < pos)%nat then maxWindowSize else pos)
      with (pos `min` 4096)%nat
      by (destruct (decide _); unfold maxWindowSize in *; lia).
    replace (if decide (maxEncodedLength < length inputData - pos)%nat
             then maxEncodedLength else (length inputData - pos)%nat)
      with (18 `min` (length inputData - pos))%nat
      by (destruct (decide _); unfold maxEncodedLength in *; lia).
    destruct (findMatch _ _ _ _) as [[off l]|]; reflexivity. }
  cbv zeta. rewrite <- Ht. split; [reflexivity|]. split.
  - intros st st1 Hinv Hpos Hstep.
    apply compressStep_view in Hstep as (_ & _ & Hip & Hcase);
      [|exact Hinv].
    rewrite Hpos in Hip, Hcase. split; [exact Hip|].
    destruct (decide (S (bitCount st) = 8%nat)); exact Hcase.
  - intros s Hs. split; [apply coreCompressV1_wire; exact Hs|].
    intros t' Ht'. unfold encoderTokens in Ht'.
    apply tokensFrom_elem in Ht' as (q & Hq & ->).
    exists q. split; [lia|reflexivity].
Qed.

(** The first iteration on [0x07 0x08], which has no match to find: the
    byte 0x07 follows the reserved control byte, and the encoder moves to
    position 1. *)
Lemma findMatch_policy_witness :
  let inputData := [Byte.x07; Byte.x08] in
  let st := {| outputBuffer := replicate 132 Byte.x00;
               inputPos := O; outputPos := 1%nat;
               currentFlag := Byte.x00; bitCount := O; flagPos := O |} in
  exists st1 : encState,
    compressStep inputData st = Ok st1 /\
    inputPos st1 = 1%nat /\
    take (outputPos st1) (outputBuffer st1) = [Byte.x00; Byte.x07].
Proof.
  cbv zeta.
  destruct (compressStep [Byte.x07; Byte.x08]
              {| outputBuffer := replicate 132 Byte.x00;
                 inputPos := O; outputPos := 1%nat;
                 currentFlag := Byte.x00; bitCount := O; flagPos := O |})
    as [st1| |] eqn:E;
    [|vm_compute in E; discriminate E|vm_compute in E; discriminate E].
  exists st1. split; [reflexivity|].
  pose proof (proj1 (proj2 (proj2
    (findMatch_policy [Byte.x07; Byte.x08] O O O)))
    {| outputBuffer := replicate 132 Byte.x00;
       inputPos := O; outputPos := 1%nat;
       currentFlag := Byte.x00; bitCount := O; flagPos := O |} st1
    ltac:(unfold encInv; simpl; lia) eq_refl E) as (Hip & Hcase).
  split; [exact Hip|].
  destruct Hcase as (_ & _ & _ & Hout). exact Hout.
Defined.

(** C3, as the code has it.  Encoding ten bytes 0x41 emits three literals
    and then two copies, of length 3 at offset 3 and of length 4 at offset
    4 (a match never overlaps the position); the stream has 8 bytes: one
    control byte, three literals and two two-byte copies.  Decoding it
    with target size 10 gives the ten bytes back, and so does decoding
    the six-byte stream with the single overlapping copy. *)
Theorem repeated_byte_example :
  let X := replicate 10 Byte.x41 in
  let s := [Byte.x18; Byte.x41; Byte.x41; Byte.x41;
            Byte.x20; Byte.x00; Byte.x31; Byte.x00] in
  encoderTokens X =
    [Literal Byte.x41; Literal Byte.x41; Literal Byte.x41;
     Copy 3 3; Copy 4 4] /\
  coreCompressV1 X = Ok s /\ length s = 8%nat /\
  lzssSimpleDecompress s 10 = Ok X /\
  lzssSimpleDecompress
    [Byte.x10; Byte.x41; Byte.x41; Byte.x41; Byte.x04; Byte.x00] 10 = Ok X.
Proof. vm_compute. repeat split; reflexivity. Qed.

(** C3 as stated fails: the stream of ten bytes 0x41 is not six bytes
    long, and its tokens are not three literals and one copy of length 7
    at offset 1. *)
Lemma repeated_byte_counterexample :
  ~ (exists s, coreCompressV1 (replicate 10 Byte.x41) = Ok s /\
               length s = 6%nat) /\
  encoderTokens (replicate 10 Byte.x41) <>
    [Literal Byte.x41; Literal Byte.x41; Literal Byte.x41; Copy 1 7].
Proof.
  split.
  - intros (s & Hs & Hlen).
    assert (H : coreCompressV1 (replicate 10 Byte.x41) =
                Ok [Byte.x18; Byte.x41; Byte.x41; Byte.x41;
                    Byte.x20; Byte.x00; Byte.x31; Byte.x00])
      by (vm_compute; reflexivity).
    rewrite H in Hs. injection Hs as <-. discriminate Hlen.
  - vm_compute. discriminate.
Qed.




(** C5, as the code has it.  [coreCompressV1] always terminates.  Its
    buffer has a fixed size, [len + 2048] bytes ([2 * len + 128] below
    1024 input bytes), which bounds the stream it returns.  It fails only
    with the capacity error, and only on inputs of at least 16384 bytes:
    every shorter input is compressed without error. *)
Theorem encoder_capacity (inputData : list byte) :
  match coreCompressV1 inputData with
  | Ok s => (length s <= estimatedOutputSize (length inputData))%nat
  | Err e => e = errBufferTooSmall /\ 16384 <= Z.of_nat (length inputData)
  | Stuck => False
  end.
Proof. apply coreCompressV1_result. Qed.

(** C5 as stated fails: on an input of 16386 bytes without a repeated
    three-byte pattern the encoder returns the capacity error. *)
Lemma encoder_capacity_counterexample :
  Z.of_nat (length incompressible) = 16386 /\
  coreCompressV1 incompressible = Err errBufferTooSmall.
Proof.
  split; [apply incompressible_length|].
  apply unmatched_input_overflows.
  - apply incompressible_unmatched.
  - rewrite incompressible_length. lia.
Qed.

(** C6. Permissive zero-fill.  When the decoder processes a copy token for
    which the two bytes are present, it does not fail: it appends at most
    [count] bytes, stopping early only at the target size; each appended
    byte is zero when the offset reaches before the start of the output
    at that moment, and otherwise the byte [offset] places before it in
    the output produced so far (so a copy with offset below its length
    repeats a run). *)
Theorem copy_zero_fill (compressedStream : list byte) (uncompressedSize : Z)
    (st : decState) :
  (S (streamIdx st) < length compressedStream)%nat ->
  let byte1 := default Byte.x00 (compressedStream !! streamIdx st) in
  let byte2 := default Byte.x00 (compressedStream !! S (streamIdx st)) in
  let offset := unpackOffset byte1 byte2 in
  let count := unpackCount byte1 in
  let out := outBuffer st in
  exists ext,
    decodeToken compressedStream uncompressedSize true st =
      Continue {| outBuffer := out ++ ext;
                  streamIdx := S (S (streamIdx st));
                  controlByte := controlByte st;
                  bitsLeft := bitsLeft st |} /\
    (length ext = count \/
     (length ext < count)%nat /\
     uint32 (Z.of_nat (length (out ++ ext))) >= uncompressedSize) /\
    forall (i : nat) (b : byte), ext !! i = Some b ->
      if decide (length out + i < offset)%nat then b = Byte.x00
      else (out ++ ext) !! (length out + i - offset)%nat = Some b.
Proof.
  intros Havail. cbv zeta. unfold decodeToken.
  rewrite decide_False by lia.
  destruct (copyLoop_ext
              (unpackCount (default Byte.x00 (compressedStream !! streamIdx st)))
              (unpackOffset
                 (default Byte.x00 (compressedStream !! streamIdx st))
                 (default Byte.x00 (compressedStream !! S (streamIdx st))))
              uncompressedSize (outBuffer st) (unpackOffset_pos _ _))
    as (ext & Heq & Hlen & Hbytes & Hstop).
  exists ext. rewrite Heq. split; [reflexivity|]. split; [|exact Hbytes].
  destruct Hstop as [Hall|Hfull]; [left; exact Hall|].
  destruct (decide (length ext =
                    unpackCount
                      (default Byte.x00 (compressedStream !! streamIdx st))))
    as [Hall|Hless]; [left; exact Hall|right]. split; [lia|exact Hfull].
Qed.

(** A literal 0x41 followed by a copy of length 5 at offset 3: the copy
    starts with one byte of output, so its first two bytes are zero and
    the others repeat what precedes them. *)
Lemma copy_zero_fill_witness :
  let stream := [Byte.x40; Byte.x41; Byte.x22; Byte.x00] in
  exists ext,
    decodeToken stream 6 true
      {| outBuffer := [Byte.x41]; streamIdx := 2%nat;
         controlByte := Byte.x00; bitsLeft := 6 |} =
    Continue {| outBuffer := [Byte.x41] ++ ext; streamIdx := 4%nat;
                controlByte := Byte.x00; bitsLeft := 6 |} /\
    lzssSimpleDecompress stream 6 =
      Ok [Byte.x41; Byte.x00; Byte.x00; Byte.x41; Byte.x00; Byte.x00].
Proof.
  cbv zeta.
  destruct (copy_zero_fill [Byte.x40; Byte.x41; Byte.x22; Byte.x00] 6
              {| outBuffer := [Byte.x41]; streamIdx := 2%nat;
                 controlByte := Byte.x00; bitsLeft := 6 |})
    as (ext & Hstep & _); [simpl; lia|].
  exists ext. split; [exact Hstep|]. vm_compute. reflexivity.
Defined.

(** C7. Truncation is never silent.  For every stream and every 32-bit
    target size, [lzssSimpleDecompress] terminates and either returns an
    output of exactly the target length or fails with the empty-stream
    error or one of the three premature-end errors.  It does fail
    whenever the stream runs out first: an empty stream with a non-zero
    target gives the empty-stream error; a stream too short to hold the
    target (nine output bytes at most for each byte after the first
    control byte) is refused; an iteration of the loop that finds the
    control byte missing, fewer than two bytes for a signaled copy, or no
    byte for a signaled literal, ends the loop with a premature-end
    error; and the stream of any token list that describes [X], cut
    anywhere or decoded with a target above [len(X)], is refused. *)
Theorem truncation_detected (compressedStream : list byte)
    (uncompressedSize : Z) :
  0 <= uncompressedSize < 4294967296 ->
  match lzssSimpleDecompress compressedStream uncompressedSize with
  | Ok out => Z.of_nat (length out) = uncompressedSize
  | Err e =>
      (e = errStreamEmpty /\ compressedStream = [] /\ 0 < uncompressedSize)
      \/ (compressedStream <> [] /\
          (e = errStreamPrematureEnd \/ e = errPrematureEndCopy \/
           e = errPrematureEndLiteral))
  | Stuck => False
  end /\
  (compressedStream = [] -> 0 < uncompressedSize ->
   lzssSimpleDecompress compressedStream uncompressedSize
   = Err errStreamEmpty) /\
  (Z.of_nat (9 * (length compressedStream - 1)) < uncompressedSize ->
   exists e,
     lzssSimpleDecompress compressedStream uncompressedSize = Err e) /\
  (forall (fuel : nat) (st : decState),
     uint32 (Z.of_nat (length (outBuffer st))) < uncompressedSize ->
     let tokenIdx :=
       if decide (bitsLeft st = 1) then S (streamIdx st)
       else streamIdx st in
     (bitsLeft st = 1 /\ (length compressedStream <= streamIdx st)%nat) \/
     (Z.land (b2z (controlByte st)) 128 <> 0 /\
      (length compressedStream <= tokenIdx + 1)%nat) \/
     (Z.land (b2z (controlByte st)) 128 = 0 /\
      (length compressedStream <= tokenIdx)%nat) ->
     exists e,
       decodeLoop (S fuel) compressedStream uncompressedSize st = Err e /\
       (e = errStreamPrematureEnd \/ e = errPrematureEndCopy \/
        e = errPrematureEndLiteral)) /\
  (forall (X : list byte) (ts : list token) (k : nat),
     parses X O ts -> compressedStream = take k (wire ts) ->
     Z.of_nat (length X) <= uncompressedSize ->
     (k < length (wire ts))%nat \/ Z.of_nat (length X) < uncompressedSize ->
     exists e,
       lzssSimpleDecompress compressedStream uncompressedSize = Err e).
Proof.
  intros Hsize.
  assert (Hout :
    match lzssSimpleDecompress compressedStream uncompressedSize with
    | Ok out => Z.of_nat (length out) = uncompressedSize
    | Err e =>
        (e = errStreamEmpty /\ compressedStream = [] /\ 0 < uncompressedSize)
        \/ (compressedStream <> [] /\
            (e = errStreamPrematureEnd \/ e = errPrematureEndCopy \/
             e = errPrematureEndLiteral))
    | Stuck => False
    end).
  { unfold lzssSimpleDecompress.
    destruct (decide (length compressedStream = O)) as [Hnil|Hne].
    - destruct (decide (uncompressedSize > 0)).
      + left. split; [reflexivity|].
        split; [destruct compressedStream; [reflexivity|discriminate]|lia].
      + simpl. lia.
    - match goal with |- context [decodeLoop ?f _ _ ?s] =>
        pose proof (decodeLoop_result compressedStream uncompressedSize
                      Hsize f s) as H
      end.
      cbn [outBuffer length] in H.
      specialize (H ltac:(lia) ltac:(lia)).
      destruct (decodeLoop _ _ _ _); [exact H| |exact H].
      right. split; [|exact H].
      intros ->. apply Hne. reflexivity. }
  split; [exact Hout|]. split; [|split; [|split]].
  - intros -> Hpos. unfold lzssSimpleDecompress. cbn [length].
    rewrite decide_True by reflexivity. now rewrite decide_True by lia.
  - intros Hshort.
    destruct (lzssSimpleDecompress compressedStream uncompressedSize)
      as [out|e|] eqn:E; [|exists e; reflexivity|destruct Hout].
    apply lzssSimpleDecompress_consumes in E. lia.
  - intros fuel st Hbelow tokenIdx Hcase. cbn [decodeLoop].
    rewrite decide_True by exact Hbelow.
    destruct (decodeStep_fails compressedStream uncompressedSize st
                Hbelow Hcase) as (e & -> & He).
    exists e. split; [reflexivity|exact He].
  - intros X ts k Hparse -> Hle Hcut.
    destruct (lzssSimpleDecompress_cut X ts k uncompressedSize
                ltac:(lia) Hparse Hle Hcut) as (e & He & _).
    exists e. exact He.
Qed.

(** The stream of the ten bytes 0x41, [18 41 41 41 20 00 31 00], cut
    after five bytes, inside its first copy. *)
Lemma truncation_detected_witness :
  lzssSimpleDecompress
    [Byte.x18; Byte.x41; Byte.x41; Byte.x41; Byte.x20] 10
  = Err errPrematureEndCopy /\
  exists e,
    lzssSimpleDecompress
      [Byte.x18; Byte.x41; Byte.x41; Byte.x41; Byte.x20] 10 = Err e.
Proof.
  split; [vm_compute; reflexivity|].
  apply (proj2 (proj2 (proj2 (proj2
           (truncation_detected
              [Byte.x18; Byte.x41; Byte.x41; Byte.x41; Byte.x20] 10
              ltac:(lia)))))
           (replicate 10 Byte.x41)
           [Literal Byte.x41; Literal Byte.x41; Literal Byte.x41;
            Copy 3 3; Copy 4 4] 5%nat).
  - cbn [parses]. repeat (split; [reflexivity || (simpl; lia)|]).
    split; [intros i Hi; do 3 (destruct i as [|i]; [reflexivity|]); lia|].
    repeat (split; [reflexivity || (simpl; lia)|]).
    split; [intros i Hi; do 4 (destruct i as [|i]; [reflexivity|]); lia|].
    reflexivity.
  - vm_compute. reflexivity.
  - simpl. lia.
  - left. vm_compute. lia.
Defined.

(** C8. Alignment.  Whenever [compressAndPadToPCMP] produces a container
    its length is a multiple of 2048; it fails only with the capacity
    error of the encoder.  For the empty input it produces exactly 2048
    bytes: the signature followed by zeros, so that both size fields of
    the header are 0. *)
Theorem container_aligned (inputData : list byte) :
  match compressAndPadToPCMP inputData with
  | Ok out => (length out `mod` fileAlignment = 0)%nat
  | Err e => e = errBufferTooSmall
  | Stuck => False
  end /\
  compressAndPadToPCMP [] = Ok (signature ++ replicate 2044 Byte.x00) /\
  length (signature ++ replicate 2044 Byte.x00) = 2048%nat /\
  getUint32 20 (signature ++ replicate 2044 Byte.x00) = 0 /\
  getUint32 24 (signature ++ replicate 2044 Byte.x00) = 0.
Proof.
  split; [|vm_compute; repeat split; reflexivity].
  unfold compressAndPadToPCMP.
  pose proof (coreCompressV1_result inputData) as Hres.
  destruct (coreCompressV1 inputData) as [s|e|]; [|apply Hres|exact Hres].
  rewrite writePCMPHeader_bytes.
  set (final := headerBytes _ _ ++ s).
  assert (Hpos : fileAlignment <> O) by discriminate.
  generalize dependent fileAlignment. intros a Hpos.
  pose proof (Nat.mod_upper_bound (length final) a Hpos) as Hlt.
  pose proof (Nat.div_mod_eq (length final) a) as Hdiv.
  destruct (decide (length final `mod` a ≠ 0)%nat) as [Hrem|Hzero].
  - rewrite decide_True by lia.
    rewrite length_app, length_replicate.
    replace (length final + (a - length final `mod` a))%nat
      with ((length final `div` a + 1) * a)%nat by lia.
    apply Nat.Div0.mod_mul.
  - rewrite decide_False by lia. lia.
Qed.

(** C9. Token invariant.  Every copy token of the encoder has an offset
    between 1 and 4096 and a length between 3 and 18, and the decoder
    unpacks its two bytes to that offset and length; every literal token
    stands for one byte of the input, which it carries.  These tokens, in
    the wire format, are the stream the encoder returns. *)
Theorem token_invariant (inputData : list byte) :
  Forall (fun t =>
            match t with
            | Copy o l =>
                (1 <= o <= 4096)%nat /\ (3 <= l <= 18)%nat /\
                exists byte1 byte2,
                  tokenBytes t = [byte1; byte2] /\
                  unpackOffset byte1 byte2 = o /\ unpackCount byte1 = l
            | Literal b =>
                tokenSpan t = 1%nat /\ tokenBytes t = [b] /\
                exists q : nat, inputData !! q = Some b
            end)
         (encoderTokens inputData) /\
  forall s, coreCompressV1 inputData = Ok s ->
            s = wire (encoderTokens inputData).
Proof.
  split; [|apply coreCompressV1_wire].
  apply Forall_forall. intros t Ht.
  apply tokensFrom_elem in Ht as (q & Hq & ->).
  unfold tokenAt. destruct (searchAt inputData q) as [[o l]|] eqn:E.
  - apply searchAt_Some in E as (Hl & _ & Hlo & _ & Ho & _).
    split; [lia|]. split; [lia|].
    destruct (unpack_pack o l ltac:(lia) ltac:(lia)) as (Hoff & Hcnt).
    eexists _, _. split; [reflexivity|]. split; assumption.
  - split; [reflexivity|]. split; [reflexivity|]. exists q.
    destruct (lookup_lt_is_Some_2 inputData q ltac:(lia)) as [b ->].
    reflexivity.
Qed.


(** * Further properties *)

(** X1. Below 16384 bytes the round trip is unconditional: the encoder
    returns a stream, and the decoder gives the input back. *)
Theorem roundtrip_below_capacity (X : list byte) :
  Z.of_nat (length X) < 16384 ->
  exists s, coreCompressV1 X = Ok s /\
            lzssSimpleDecompress s (Z.of_nat (length X)) = Ok X.
Proof.
  intros Hsmall. pose proof (coreCompressV1_result X) as Hres.
  destruct (coreCompressV1 X) as [s|e|] eqn:Henc.
  - exists s. split; [reflexivity|].
    apply coreCompressV1_wire in Henc. subst s.
    apply lzssSimpleDecompress_wire; [lia|].
    unfold encoderTokens. apply tokensFrom_parses; lia.
  - destruct Hres as (_ & Hbig). lia.
  - destruct Hres.
Qed.

(** The round trip of twelve bytes that alternate between two values. *)
Lemma roundtrip_below_capacity_witness :
  let X := [Byte.x0a; Byte.x0b; Byte.x0a; Byte.x0b; Byte.x0a; Byte.x0b;
            Byte.x0a; Byte.x0b; Byte.x0a; Byte.x0b; Byte.x0a; Byte.x0b] in
  exists s, coreCompressV1 X = Ok s /\
            lzssSimpleDecompress s (Z.of_nat (length X)) = Ok X.
Proof.
  cbv zeta. apply roundtrip_below_capacity. simpl. lia.
Defined.

(** X2. The decoder rebuilds [X] from the wire format of any token list
    that describes [X], also when a copy overlaps the bytes it produces
    (offset below length), which the encoder never emits. *)
Theorem decoder_reads_tokens (X : list byte) (ts : list token) :
  Z.of_nat (length X) < 4294967296 -> parses X O ts ->
  lzssSimpleDecompress (wire ts) (Z.of_nat (length X)) = Ok X.
Proof. apply lzssSimpleDecompress_wire. Qed.

(** Ten bytes 0x41 as three literals and one copy of length 7 at offset 1,
    the six-byte stream of the worked example of the specification. *)
Lemma decoder_reads_tokens_witness :
  let X := replicate 10 Byte.x41 in
  let ts := [Literal Byte.x41; Literal Byte.x41; Literal Byte.x41;
             Copy 1 7] in
  wire ts = [Byte.x10; Byte.x41; Byte.x41; Byte.x41; Byte.x04; Byte.x00] /\
  lzssSimpleDecompress (wire ts) (Z.of_nat (length X)) = Ok X.
Proof.
  cbv zeta. split; [vm_compute; reflexivity|].
  apply decoder_reads_tokens; [simpl; lia|].
  cbn [parses]. repeat (split; [reflexivity || lia|]).
  split.
  - intros i Hi. do 7 (destruct i as [|i]; [reflexivity|]). lia.
  - reflexivity.
Defined.

(** X3. What [decompressPCMPFile] can return.  It terminates; when it
    succeeds the file starts with the signature and the output has
    exactly the length the header declares at offset 0x14.  A header
    error is the too-short error for a file below 32 bytes and the
    signature error otherwise.  The stream it hands to the decoder always
    lies inside the file, so its own bounds error is never returned, and
    is never empty, so the decoder's empty-stream error is never
    returned either; the zero-size error needs a header that declares a
    positive output size in a file whose count of bytes after the header
    is zero modulo 2^32. *)
Theorem decompressPCMPFile_outcome (fileData : list byte) :
  match decompressPCMPFile fileData with
  | FileOk out =>
      (32 <= length fileData)%nat /\ take 4 fileData = signature /\
      Z.of_nat (length out) = getUint32 20 fileData
  | FileErr (errProcessingHeader e) =>
      (e = errFileTooShort /\ (length fileData < 32)%nat) \/
      (e = errInvalidSignature /\ (32 <= length fileData)%nat /\
       take 4 fileData <> signature)
  | FileErr errStreamExceedsFile => False
  | FileErr errZeroStreamSize =>
      uint32 (Z.of_nat (length fileData) - 32) = 0 /\
      getUint32 20 fileData > 0
  | FileErr (errDecompression e) =>
      e = errStreamPrematureEnd \/ e = errPrematureEndCopy \/
      e = errPrematureEndLiteral
  | FileStuck => False
  end.
Proof.
  unfold decompressPCMPFile.
  destruct (readPCMPHeader fileData) as [[u c]|e|] eqn:Hhdr.
  - pose proof (readPCMPHeader_clamped _ _ _ Hhdr) as (Hu & Hc & Hin & Hzero).
    apply readPCMPHeader_Ok in Hhdr as (Hlen & Hsig & -> & _).
    unfold pcmpDataOffset. change (Z.of_nat 32) with 32.
    destruct (decide (32 + c > Z.of_nat (length fileData))); [lia|].
    destruct (decide (c = 0 /\ getUint32 20 fileData > 0)) as [[Hc0 Hu0]|Hn1].
    { split; [apply Hzero; exact Hc0|exact Hu0]. }
    destruct (decide (c = 0 /\ getUint32 20 fileData = 0)) as [[Hc0 Hu0]|Hn2].
    { split; [exact Hlen|]. split; [exact Hsig|]. simpl. lia. }
    assert (Hcpos : 0 < c) by lia.
    set (stream := slice 32 (32 + Z.to_nat c) fileData).
    assert (Hstream : stream <> []).
    { intros E. apply (f_equal length) in E. unfold stream in E.
      rewrite slice_length in E by lia. simpl in E. lia. }
    pose proof (lzssSimpleDecompress_outcome stream _ Hu) as Hdec.
    destruct (lzssSimpleDecompress stream (getUint32 20 fileData))
      as [out|e|].
    + split; [exact Hlen|]. split; [exact Hsig|exact Hdec].
    + destruct Hdec as [(_ & Hnil)|(_ & Herr)];
        [contradiction|exact Herr].
    + exact Hdec.
  - apply readPCMPHeader_Err. exact Hhdr.
  - exact (readPCMPHeader_not_stuck _ Hhdr).
Qed.

(** X4. The compressed size [readPCMPHeader] returns never reaches past
    the end of the file: both sizes are 32-bit values, the compressed
    size is at most the number of bytes after the header, the stream
    [buf[32:32+compSize]] has exactly that many bytes, and it is zero
    only when the count of bytes after the header is zero modulo 2^32. *)
Theorem header_size_clamped (buf : list byte) (outSize compSize : Z) :
  readPCMPHeader buf = Ok (outSize, compSize) ->
  0 <= outSize < 4294967296 /\
  0 <= compSize <= Z.of_nat (length buf) - 32 /\
  compSize < 4294967296 /\
  length (slice pcmpDataOffset (pcmpDataOffset + Z.to_nat compSize) buf)
    = Z.to_nat compSize /\
  (compSize = 0 <-> uint32 (Z.of_nat (length buf) - 32) = 0).
Proof.
  intros H.
  destruct (readPCMPHeader_clamped _ _ _ H) as (Hu & Hc & Hin & Hzero).
  split; [exact Hu|]. split; [lia|]. split; [lia|].
  split; [|exact Hzero].
  unfold pcmpDataOffset. rewrite slice_length by lia. lia.
Qed.

(** A header that declares 9 stream bytes in a file that has 5. *)
Lemma header_size_clamped_witness :
  readPCMPHeader (headerBytes 7 9 ++ replicate 5 Byte.x00) = Ok (7, 5) /\
  0 <= 5 <= Z.of_nat (length (headerBytes 7 9 ++ replicate 5 Byte.x00)) - 32.
Proof.
  assert (H : readPCMPHeader (headerBytes 7 9 ++ replicate 5 Byte.x00)
              = Ok (7, 5)) by (vm_compute; reflexivity).
  split; [exact H|].
  exact (proj1 (proj2 (header_size_clamped _ _ _ H))).
Defined.

(** X5. The container [compressAndPadToPCMP] returns is the header with
    the (32-bit) lengths of the input and of the stream, the stream of
    [coreCompressV1], and fewer than 2048 zero bytes: its length is the
    least multiple of 2048 that holds header and stream. *)
Theorem container_layout (inputData out : list byte) :
  compressAndPadToPCMP inputData = Ok out ->
  exists (s : list byte) (k : nat),
    coreCompressV1 inputData = Ok s /\
    out = headerBytes (uint32 (Z.of_nat (length inputData)))
            (uint32 (Z.of_nat (length s))) ++ s ++ replicate k Byte.x00 /\
    length out = (32 + length s + k)%nat /\
    (k < 2048)%nat /\ (length out `mod` 2048 = 0)%nat.
Proof.
  intros H.
  destruct (compressAndPadToPCMP_layout _ _ H) as (s & k & Hs & -> & Hk & Ha).
  exists s, k. split; [exact Hs|]. split; [reflexivity|].
  split; [|split; [exact Hk|exact Ha]].
  rewrite !length_app, headerBytes_length, length_replicate. lia.
Qed.

(** The container of ten bytes 0x41: 32 + 8 bytes and 2008 zeros. *)
Lemma container_layout_witness :
  exists (s : list byte) (k : nat),
    coreCompressV1 (replicate 10 Byte.x41) = Ok s /\
    compressAndPadToPCMP (replicate 10 Byte.x41) =
      Ok (headerBytes (uint32 10) (uint32 (Z.of_nat (length s)))
            ++ s ++ replicate k Byte.x00) /\
    (k < 2048)%nat.
Proof.
  destruct (compressAndPadToPCMP (replicate 10 Byte.x41)) as [out| |] eqn:E;
    [|vm_compute in E; discriminate E|vm_compute in E; discriminate E].
  destruct (container_layout _ _ E) as (s & k & Hs & -> & _ & Hk & _).
  exists s, k. split; [exact Hs|]. split; [reflexivity|exact Hk].
Defined.

(** X6. Round trip of the two tools.  For a file of fewer than
    2^32 - 4096 bytes, what [main] of the compressor writes is what
    [compressAndPadToPCMP] returns (the separate path for the empty file
    gives the same bytes), and [decompressPCMPFile] turns it back into
    the file. *)
Theorem tool_roundtrip (inputData out : list byte) :
  Z.of_nat (length inputData) < 4294963200 ->
  compressorMain inputData = Ok out ->
  compressAndPadToPCMP inputData = Ok out /\
  decompressPCMPFile out = FileOk inputData.
Proof.
  intros Hsmall. unfold compressorMain.
  destruct (decide (length inputData = O)) as [Hnil|Hne].
  - destruct inputData; [|discriminate]. intros H.
    apply Ok_inj in H. subst out. split; vm_compute; reflexivity.
  - intros H. split; [exact H|].
    destruct (compressAndPadToPCMP_layout _ _ H) as (s & k & Hs & -> & Hk & _).
    pose proof (coreCompressV1_result inputData) as Hres.
    rewrite Hs in Hres.
    pose proof (estimatedOutputSize_max (length inputData)) as Hest.
    unfold fileAlignment in Hk.
    assert (Hs32 : Z.of_nat (length s) < 4294967296 - 2048) by lia.
    unfold uint32.
    rewrite (Z.mod_small (Z.of_nat (length inputData))) by lia.
    rewrite (Z.mod_small (Z.of_nat (length s))) by lia.
    apply decompressPCMPFile_container;
      rewrite ?length_replicate; try lia. exact Hs.
Qed.

(** The two tools on a file of ten bytes 0x41. *)
Lemma tool_roundtrip_witness :
  exists out, compressorMain (replicate 10 Byte.x41) = Ok out /\
              decompressPCMPFile out = FileOk (replicate 10 Byte.x41).
Proof.
  destruct (compressorMain (replicate 10 Byte.x41)) as [out| |] eqn:E;
    [|vm_compute in E; discriminate E|vm_compute in E; discriminate E].
  exists out. split; [reflexivity|].
  exact (proj2 (tool_roundtrip (replicate 10 Byte.x41) out
                  ltac:(simpl; lia) E)).
Defined.

(** X7. The declared stream size is advisory.  A file that consists of
    a header declaring the length of [X], the stream of [X] and any
    further bytes (padding or not) is decompressed to [X] whenever the
    declared stream size is zero, the true size, or anything above it:
    the size is clamped to the file, and the decoder stops at the
    target. *)
Theorem declared_size_advisory (X s pad : list byte) (c : Z) :
  coreCompressV1 X = Ok s ->
  Z.of_nat (length X) < 4294967296 ->
  Z.of_nat (length s + length pad) < 4294967296 ->
  0 <= c < 4294967296 -> c = 0 \/ Z.of_nat (length s) <= c ->
  decompressPCMPFile (headerBytes (Z.of_nat (length X)) c ++ s ++ pad)
  = FileOk X.
Proof. apply decompressPCMPFile_container. Qed.

(** Ten bytes 0x41 from a file whose header declares no stream size and
    whose stream is followed by three bytes 0xFF. *)
Lemma declared_size_advisory_witness :
  decompressPCMPFile
    (headerBytes 10 0 ++
     [Byte.x18; Byte.x41; Byte.x41; Byte.x41;
      Byte.x20; Byte.x00; Byte.x31; Byte.x00] ++
     [Byte.xff; Byte.xff; Byte.xff])
  = FileOk (replicate 10 Byte.x41).
Proof.
  apply (declared_size_advisory (replicate 10 Byte.x41)
           [Byte.x18; Byte.x41; Byte.x41; Byte.x41;
            Byte.x20; Byte.x00; Byte.x31; Byte.x00]
           [Byte.xff; Byte.xff; Byte.xff] 0);
    [vm_compute; reflexivity|simpl; lia|simpl; lia|lia|left; reflexivity].
Defined.

(** X8. Size of the stream.  A stream [coreCompressV1] returns is at most
    nine eighths of the input plus one byte, and at least 17/144 of it:
    a token costs at least 9 bits per byte and at best 17 bits for 18
    bytes. *)
Theorem stream_size_bounds (inputData s : list byte) :
  coreCompressV1 inputData = Ok s ->
  (8 * length s <= 9 * length inputData + 8)%nat /\
  (17 * length inputData <= 144 * length s)%nat /\
  (s = [] <-> inputData = []).
Proof.
  intros H. destruct (coreCompressV1_size _ _ H) as (Hup & Hlow).
  split; [exact Hup|]. split; [exact Hlow|].
  exact (coreCompressV1_nil _ _ H).
Qed.

(** Thirty-six equal bytes: three literals and copies of 3, 6, 12 and 12
    bytes, twelve bytes of stream. *)
Lemma stream_size_bounds_witness :
  coreCompressV1 (replicate 36 Byte.x41) =
    Ok [Byte.x1e; Byte.x41; Byte.x41; Byte.x41; Byte.x20; Byte.x00;
        Byte.x53; Byte.x00; Byte.xb9; Byte.x00; Byte.xb9; Byte.x00] /\
  (17 * 36 <= 144 * 12)%nat.
Proof.
  assert (H : coreCompressV1 (replicate 36 Byte.x41) =
    Ok [Byte.x1e; Byte.x41; Byte.x41; Byte.x41; Byte.x20; Byte.x00;
        Byte.x53; Byte.x00; Byte.xb9; Byte.x00; Byte.xb9; Byte.x00])
    by (vm_compute; reflexivity).
  split; [exact H|].
  exact (proj1 (proj2 (stream_size_bounds _ _ H))).
Defined.

(** X9. Bytes after the stream are ignored: when a stream decodes to
    [out], the stream followed by any bytes decodes to [out] as well. *)
Theorem trailing_bytes_ignored (stream extra out : list byte) (size : Z) :
  lzssSimpleDecompress stream size = Ok out ->
  lzssSimpleDecompress (stream ++ extra) size = Ok out.
Proof. apply lzssSimpleDecompress_app. Qed.

(** The stream of ten bytes 0x41 followed by two bytes 0xFF. *)
Lemma trailing_bytes_ignored_witness :
  lzssSimpleDecompress
    ([Byte.x18; Byte.x41; Byte.x41; Byte.x41;
      Byte.x20; Byte.x00; Byte.x31; Byte.x00] ++ [Byte.xff; Byte.xff]) 10
  = Ok (replicate 10 Byte.x41).
Proof.
  apply trailing_bytes_ignored. vm_compute. reflexivity.
Defined.

(** X10. A smaller target gives the beginning of the output: when a
    stream decodes to [out] with the target [n], it decodes with any
    target [m <= n] to the first [m] bytes of [out], stopping in the
    middle of a copy if need be. *)
Theorem smaller_target_prefix (stream out : list byte) (m n : Z) :
  0 <= m <= n -> n < 4294967296 ->
  lzssSimpleDecompress stream n = Ok out ->
  lzssSimpleDecompress stream m = Ok (take (Z.to_nat m) out).
Proof. apply lzssSimpleDecompress_smaller. Qed.

(** The stream of ten bytes 0x41 with target 5: the first copy is cut
    after two of its three bytes. *)
Lemma smaller_target_prefix_witness :
  lzssSimpleDecompress
    [Byte.x18; Byte.x41; Byte.x41; Byte.x41;
     Byte.x20; Byte.x00; Byte.x31; Byte.x00] 5
  = Ok (take 5 (replicate 10 Byte.x41)).
Proof.
  apply (smaller_target_prefix _ (replicate 10 Byte.x41) 5 10);
    [lia|lia|vm_compute; reflexivity].
Defined.

(** X11. The capacity error on incompressible input.  An input of at
    least 16384 bytes in which no three consecutive bytes recur 3 to
    4096 positions later is refused by [coreCompressV1] with the
    capacity error: every byte becomes a literal, and nine eighths of
    the input do not fit the buffer. *)
Theorem unmatched_window_overflows (inputData : list byte) :
  (forall q p : nat, (q + 3 <= p <= q + 4096)%nat ->
     (p + 3 <= length inputData)%nat ->
     slice q (q + 3) inputData <> slice p (p + 3) inputData) ->
  16384 <= Z.of_nat (length inputData) ->
  coreCompressV1 inputData = Err errBufferTooSmall /\
  forall t, t ∈ encoderTokens inputData -> isCopy t = false.
Proof.
  intros Hdistinct Hbig.
  pose proof (distinct_in_window_unmatched _ Hdistinct) as Hnone.
  split; [apply unmatched_input_overflows; assumption|].
  intros t Ht. apply tokensFrom_elem in Ht as (q & _ & ->).
  unfold tokenAt. now rewrite Hnone.
Qed.

(** The 16386 bytes of [incompressible]. *)
Lemma unmatched_window_overflows_witness :
  coreCompressV1 incompressible = Err errBufferTooSmall /\
  forall t, t ∈ encoderTokens incompressible -> isCopy t = false.
Proof.
  apply unmatched_window_overflows.
  - intros q p Hqp Hp.
    apply (trigramsFrom_distinct _ incompressible_trigrams); lia.
  - rewrite incompressible_length. lia.
Defined.
